(** * Morphological operators of mahotas' [_morph.cpp]

    A shallow embedding of [erode], [dilate] and [cwatershed]
    (src/morph/_morph.cpp) together with the properties of these operators
    that the specification states.

    Layout:
    - [Elem]    the integer element types the operators are instantiated at;
    - [numpy]   positions and n-dimensional arrays (the interface of
                [array.hpp]);
    - [Morph]   [central_position], [erode], [dilate], [MarkerInfo],
                the priority queue and [cwatershed];
    - [Spec]    the vocabulary of the statements and the arrays of the
                examples;
    - [ArrayFacts], [Geometry], [Erode], [Dilate], [Queue], [Watershed]:
      the lemmas and theorems. *)

From Stdlib Require Import ZArith Lia List Bool.
From stdpp Require Import base tactics option list list_numbers sorting.

Local Open Scope Z_scope.

(* ===================================================================== *)
(** * Element types *)
(* ===================================================================== *)

Module Elem.

(** Modelled from the spec: the macro [HANDLE_INTEGER_TYPES] of
    [dispatch.hpp] is not part of the sources at hand.  The operators are
    templates over the element type; the binding layer instantiates them
    at the signed and unsigned integers of 8, 16, 32 and 64 bits. *)
Inductive itype : Type :=
  | Int8 | UInt8 | Int16 | UInt16 | Int32 | UInt32 | Int64 | UInt64.

Definition bits (T : itype) : Z :=
  match T with
  | Int8 | UInt8 => 8
  | Int16 | UInt16 => 16
  | Int32 | UInt32 => 32
  | Int64 | UInt64 => 64
  end.

Definition is_signed (T : itype) : bool :=
  match T with
  | Int8 | Int16 | Int32 | Int64 => true
  | UInt8 | UInt16 | UInt32 | UInt64 => false
  end.

(** [std::numeric_limits<T>::max()]. *)
Definition max_value (T : itype) : Z :=
  if is_signed T then 2 ^ (bits T - 1) - 1 else 2 ^ bits T - 1.

(** Conversion of an integer to [T]: reduction modulo [2 ^ bits T] into the
    range of [T] (two's complement for the signed types). *)
Definition wrap (T : itype) (z : Z) : Z :=
  if is_signed T
  then (z + 2 ^ (bits T - 1)) mod 2 ^ bits T - 2 ^ (bits T - 1)
  else z mod 2 ^ bits T.

(** [a + b] stored into a [T]: the sum, reduced into the type. *)
Definition add (T : itype) (a b : Z) : Z := wrap T (a + b).

(** A [bool] stored into an integer type: [true] is 1, [false] is 0. *)
Definition of_bool (b : bool) : Z := if b then 1 else 0.

(** Truth value of an element, as in a C++ condition: nonzero. *)
Definition truthy (z : Z) : bool := negb (z =? 0).

(** Conversion to C [int], 32 bits and signed: the value itself when it
    fits, its reduction modulo [2 ^ 32] otherwise. *)
Definition to_int (z : Z) : Z := wrap Int32 z.

End Elem.

(* ===================================================================== *)
(** * Positions and arrays *)
(* ===================================================================== *)

(** [array.hpp] is not part of the sources at hand: the whole module is
    modelled from the specification's description of positions and
    arrays. *)

Module numpy.

(** Modelled from the spec: [numpy::position] of [array.hpp].  A position
    is a tuple of integer coordinates, one per dimension. *)
Definition position : Type := list Z.

(** Modelled from the spec: the operators [+] and [-] of
    [numpy::position], coordinatewise. *)
Definition padd (a b : position) : position := zip_with Z.add a b.
Definition psub (a b : position) : position := zip_with Z.sub a b.

(** Modelled from the spec: [numpy::array<T>] and [numpy::aligned_array<T>]
    of [array.hpp].  An array is a dense buffer described by its
    per-dimension extents, with implicit row-major strides. *)
Record ndarray (A : Type) : Type := mk_ndarray {
  dims : list Z;
  data : list A
}.
Arguments mk_ndarray {A} _ _.
Arguments dims {A} _.
Arguments data {A} _.

Definition product (ds : list Z) : Z := fold_right Z.mul 1 ds.

(** Modelled from the spec: [size()], the number of elements. *)
Definition size {A} (a : ndarray A) : nat := Z.to_nat (product (dims a)).

(** Modelled from the spec: [validposition].  A position is valid when it
    has one coordinate per dimension and each lies in [[0, extent)]. *)
Fixpoint in_bounds (ds : list Z) (pos : position) : bool :=
  match ds, pos with
  | [], [] => true
  | d :: ds', x :: xs => (0 <=? x) && (x <? d) && in_bounds ds' xs
  | _, _ => false
  end.

Definition validposition {A} (a : ndarray A) (pos : position) : bool :=
  in_bounds (dims a) pos.

(** Modelled from the spec: the row-major offset of a position in the
    buffer. *)
Fixpoint ravel (ds : list Z) (pos : position) (acc : Z) : Z :=
  match ds, pos with
  | d :: ds', x :: xs => ravel ds' xs (acc * d + x)
  | _, _ => acc
  end.

Definition offset {A} (a : ndarray A) (pos : position) : nat :=
  Z.to_nat (ravel (dims a) pos 0).

(** Modelled from the spec: [a.at(pos)], read.  The callers test
    [validposition] first; on an invalid position the source is undefined
    and the model reads whatever the offset designates. *)
Definition at_ {A} `{!Inhabited A} (a : ndarray A) (pos : position) : A :=
  data a !!! offset a pos.

(** Modelled from the spec: [a.at(pos) = v]. *)
Definition at_put {A} (a : ndarray A) (pos : position) (v : A) : ndarray A :=
  mk_ndarray (dims a) (<[offset a pos := v]> (data a)).

(** Modelled from the spec: the positions that an iterator visits from
    [begin()], in row-major order (the last coordinate varies fastest). *)
Fixpoint indices (ds : list Z) : list position :=
  match ds with
  | [] => [[]]
  | d :: ds' => seqZ 0 d ≫= fun x => cons x <$> indices ds'
  end.

Definition positions {A} (a : ndarray A) : list position := indices (dims a).

(** Modelled from the spec: a freshly allocated array of the extents [ds],
    as [PyArray_FromDims] followed by [std::fill_n] of [v] gives. *)
Definition filled {A} (ds : list Z) (v : A) : ndarray A :=
  mk_ndarray ds (replicate (Z.to_nat (product ds)) v).

(** Modelled from the spec: [array_like(a)], a new array of the extents of
    [a]. *)
Definition array_like {A} (a : ndarray A) (v : A) : ndarray A :=
  filled (dims a) v.

(** Well-formed array: nonnegative extents and a buffer of matching size. *)
Definition wf {A} (a : ndarray A) : Prop :=
  Forall (fun d => 0 <= d) (dims a) /\ length (data a) = size a.

End numpy.

(* ===================================================================== *)
(** * The operators *)
(* ===================================================================== *)

(** The functions of [_morph.cpp], in the order of the file.  A loop over
    an array is a fold over the positions that its iterator visits, cut at
    the loop's count; the counts are taken to be exact, which the [int]
    and [unsigned] counters of the source are for arrays of fewer than
    [2 ^ 31] elements.  An element is its value in [Z]; a sum stored into
    an element is reduced into the element type.  The queue is the list of
    its entries in the order of their insertion, [top] being the entry
    that [operator<] ranks highest. *)

Module Morph.
Import Elem numpy.

(** [central_position]: every extent halved. *)
Definition central_position {A} (a : ndarray A) : position :=
  map (fun d => Z.quot d 2) (dims a).

(** The neighbour [p + c - centre] of [p] through the cell [c]. *)
Definition neighbour (p c centre : position) : position :=
  psub (padd p c) centre.

(** ** erode *)

(** The scan of the structuring element for one position [rp], lines
    36-45: [true] unless an active cell has a valid neighbour holding zero;
    the scan stops at the first such cell. *)
Fixpoint erode_scan (array Bc : ndarray Z) (centre rp : position)
    (cells : list position) : bool :=
  match cells with
  | [] => true
  | c :: rest =>
      if truthy (at_ Bc c) then
        let npos := neighbour rp c centre in
        if validposition array npos && negb (truthy (at_ array npos))
        then false
        else erode_scan array Bc centre rp rest
      else erode_scan array Bc centre rp rest
  end.

Definition erode (res array Bc : ndarray Z) : ndarray Z :=
  let centre := central_position Bc in
  fold_left
    (fun r rp =>
       at_put r rp
         (of_bool (erode_scan array Bc centre rp
                     (take (size Bc) (positions Bc)))))
    (take (size res) (positions res)) res.

(** [py_erode]: the result is allocated with the extents of [array]
    ([PyArray_FromDims] zeroes it) and filled by [erode]. *)
Definition py_erode (array Bc : ndarray Z) : ndarray Z :=
  erode (array_like array 0) array Bc.

(** ** dilate *)

Definition dilate_cell (T : itype) (Bc : ndarray Z) (centre pos : position)
    (v : Z) (res : ndarray Z) (c : position) : ndarray Z :=
  if truthy (at_ Bc c) then
    let npos := neighbour pos c centre in
    if validposition res npos
    then at_put res npos (add T v (at_ Bc c))
    else res
  else res.

Definition dilate_pos (T : itype) (array Bc : ndarray Z) (centre : position)
    (res : ndarray Z) (pos : position) : ndarray Z :=
  if truthy (at_ array pos)
  then fold_left (dilate_cell T Bc centre pos (at_ array pos))
         (take (size Bc) (positions Bc)) res
  else res.

Definition dilate (T : itype) (res array Bc : ndarray Z) : ndarray Z :=
  let centre := central_position Bc in
  fold_left (dilate_pos T array Bc centre)
    (take (size res) (positions array)) res.

Definition py_dilate (T : itype) (array Bc : ndarray Z) : ndarray Z :=
  dilate T (array_like array 0) array Bc.

(** ** The watershed queue *)

Module MarkerInfo.

Record t : Type := mk { cost : Z; idx : Z; pos : position }.

(** The constructor [MarkerInfo(int cost, int idx, numpy::position pos)].
    The call sites pass a [BaseType] for [cost], which is converted to
    [int]; [idx] is passed the [int] counter of [cwatershed]. *)
Definition new (c : Z) (i : Z) (p : position) : t :=
  mk (to_int c) i p.

(** [operator<], reversed so that the smaller entry compares higher. *)
Definition lt (a b : t) : bool :=
  if cost a =? cost b then idx a >? idx b else cost a >? cost b.

#[global] Instance eq_dec : EqDecision t.
Proof. solve_decision. Defined.

End MarkerInfo.

(** [std::priority_queue<MarkerInfo>]: a bag of entries; [top] is an entry
    that no other entry exceeds under [operator<], [pop] removes it. *)
Definition priority_queue : Type := list MarkerInfo.t.

Definition push (q : priority_queue) (e : MarkerInfo.t) : priority_queue :=
  q ++ [e].

Fixpoint greatest (best : MarkerInfo.t) (q : list MarkerInfo.t) : MarkerInfo.t :=
  match q with
  | [] => best
  | e :: q' => greatest (if MarkerInfo.lt best e then e else best) q'
  end.

Definition top (q : priority_queue) : option MarkerInfo.t :=
  match q with
  | [] => None
  | e :: q' => Some (greatest e q')
  end.

Fixpoint remove_one (e : MarkerInfo.t) (q : list MarkerInfo.t) : list MarkerInfo.t :=
  match q with
  | [] => []
  | x :: q' => if decide (x = e) then q' else x :: remove_one e q'
  end.

Definition pop (q : priority_queue) : priority_queue :=
  match top q with
  | None => q
  | Some e => remove_one e q
  end.

(** ** cwatershed *)

(** The variables of [cwatershed] that change while it runs.  The counter
    [idx] counts the pushes; every position is pushed at most once (see
    [idx_bounded]), so the [int] of the source holds it. *)
Record wstate : Type := mk_wstate {
  res : ndarray Z;
  cost : ndarray Z;
  status : ndarray bool;
  hqueue : priority_queue;
  idx : Z
}.

(** Lines 149-153: [cost] filled with the maximum of the element type,
    [status] with [false], an empty queue, [idx = 0]. *)
Definition initial (T : itype) (res0 array : ndarray Z) : wstate :=
  mk_wstate res0 (array_like array (max_value T)) (filled (dims array) false)
    [] 0.

(** Body of the loop over the markers, lines 157-162. *)
Definition seed (array markers : ndarray Z) (st : wstate) (mpos : position)
    : wstate :=
  if truthy (at_ markers mpos) then
    mk_wstate
      (at_put (res st) mpos (at_ markers mpos))
      (at_put (cost st) mpos (at_ array mpos))
      (status st)
      (push (hqueue st) (MarkerInfo.new (at_ markers mpos) (idx st) mpos))
      (idx st + 1)
  else st.

Definition seeds (T : itype) (res0 array markers : ndarray Z) : wstate :=
  fold_left (seed array markers)
    (take (size res0) (positions markers)) (initial T res0 array).

(** Body of the loop over the structuring element, lines 171-181. *)
Definition flood_cell (array Bc : ndarray Z) (centre pos : position)
    (st : wstate) (c : position) : wstate :=
  if truthy (at_ Bc c) then
    let npos := neighbour pos c centre in
    if validposition (status st) npos && negb (at_ (status st) npos) then
      let ncost := at_ array npos in
      if ncost <? at_ (cost st) npos then
        mk_wstate
          (at_put (res st) npos (at_ (res st) pos))
          (at_put (cost st) npos ncost)
          (status st)
          (push (hqueue st) (MarkerInfo.new ncost (idx st) npos))
          (idx st + 1)
      else st
    else st
  else st.

(** Lines 166-168: the state once the top entry is popped and its position
    marked as settled. *)
Definition settle (st : wstate) (pos : position) : wstate :=
  mk_wstate (res st) (cost st) (at_put (status st) pos true)
    (pop (hqueue st)) (idx st).

(** One iteration of the main loop, lines 166-182; [None] when the queue
    is empty. *)
Definition flood_step (array Bc : ndarray Z) (st : wstate) : option wstate :=
  match top (hqueue st) with
  | None => None
  | Some e =>
      let pos := MarkerInfo.pos e in
      Some (fold_left (flood_cell array Bc (central_position Bc) pos)
              (take (size Bc) (positions Bc)) (settle st pos))
  end.

(** The main loop, run for at most [fuel] iterations: [Some] of the state
    in which the queue is empty, [None] when the fuel runs out first. *)
Fixpoint flood (fuel : nat) (array Bc : ndarray Z) (st : wstate)
    : option wstate :=
  match flood_step array Bc st with
  | None => Some st
  | Some st' =>
      match fuel with
      | O => None
      | S fuel' => flood fuel' array Bc st'
      end
  end.

(** The state after [k] iterations of the main loop (or the final state,
    when the queue empties earlier). *)
Fixpoint iterate (k : nat) (array Bc : ndarray Z) (st : wstate) : wstate :=
  match k with
  | O => st
  | S k' =>
      match flood_step array Bc st with
      | None => st
      | Some st' => iterate k' array Bc st'
      end
  end.

(** [cwatershed]: the seeds, then the main loop.  Every position enters the
    queue at most once, so [size res0] iterations are enough: the loop
    then returns, and more fuel changes nothing. *)
Definition cwatershed (T : itype) (res0 array markers Bc : ndarray Z)
    : option (ndarray Z) :=
  res <$> flood (size res0) array Bc (seeds T res0 array markers).

(** [py_cwatershed]: the result is allocated with the extents of [array]
    and zeroed. *)
Definition py_cwatershed (T : itype) (array markers Bc : ndarray Z)
    : option (ndarray Z) :=
  cwatershed T (array_like array 0) array markers Bc.

End Morph.

(* ===================================================================== *)
(** * Vocabulary of the statements *)
(* ===================================================================== *)

(** The definitions below are not in the source: they name what the
    theorems speak about (conditions, lists of stores and of queue
    entries, invariants) and fix the arrays of the examples. *)

Module Spec.
Import Elem numpy Morph.

(** ** Arrays of the examples *)

(** A one-dimensional array, for the examples. *)
Definition row (l : list Z) : ndarray Z :=
  mk_ndarray [Z.of_nat (length l)] l.

(** The plus-shaped structuring element. *)
Definition plus3x3 : ndarray Z := mk_ndarray [3; 3] [0; 1; 0; 1; 1; 1; 0; 1; 0].

(** The watershed example of the specification. *)
Definition ex_array : ndarray Z := row [5; 3; 6; 2; 7].
Definition ex_markers : ndarray Z := row [1; 0; 0; 2; 0].
Definition ex_Bc : ndarray Z := row [1; 1; 1].

(** An 8-bit image with an element at the maximum of the type. *)
Definition ex8_array : ndarray Z := row [5; 127; 6].
Definition ex8_markers : ndarray Z := row [1; 0; 0].

(** Markers of 64 bits, the first with a label outside the range of
    [int]: [2 ^ 32 + 1]. *)
Definition ex64_markers : ndarray Z := row [4294967297; 0; 0].

(** ** Erosion *)

(** The condition under which a position stays on: every active cell of
    [Bc] whose neighbour of [p] is a valid position of [array] finds a
    nonzero element there. *)
Definition neighbours_on (array Bc : ndarray Z) (p : position) : Prop :=
  forall c, validposition Bc c = true -> at_ Bc c <> 0 ->
    validposition array (neighbour p c (central_position Bc)) = true ->
    at_ array (neighbour p c (central_position Bc)) <> 0.

(** ** Dilation *)

(** The stores of [dilate] as a list, in the order of the scan: for every
    source position [pos] of [array] holding a nonzero element, in
    iteration order, and every active cell [c] of [Bc], in iteration order,
    whose neighbour of [pos] is a valid position of [res], the pair of
    that neighbour and of [array.at(pos) + Bc.at(c)]. *)
Definition cell_writes (T : itype) (res Bc : ndarray Z)
    (centre pos : position) (v : Z) (c : position) : list (position * Z) :=
  if truthy (at_ Bc c) && validposition res (neighbour pos c centre)
  then [(neighbour pos c centre, add T v (at_ Bc c))]
  else [].

Definition pos_writes (T : itype) (res array Bc : ndarray Z)
    (centre pos : position) : list (position * Z) :=
  if truthy (at_ array pos)
  then take (size Bc) (positions Bc)
         ≫= cell_writes T res Bc centre pos (at_ array pos)
  else [].

Definition writes (T : itype) (res array Bc : ndarray Z)
    : list (position * Z) :=
  take (size res) (positions array)
    ≫= pos_writes T res array Bc (central_position Bc).

(** One store. *)
Definition put (r : ndarray Z) (w : position * Z) : ndarray Z :=
  at_put r w.1 w.2.


(** [n] is touched: a nonzero source of [array] reaches it through an
    active cell of [Bc]. *)
Definition touched (array Bc : ndarray Z) (n : position) : Prop :=
  exists p c,
    validposition array p = true /\ at_ array p <> 0 /\
    validposition Bc c = true /\ at_ Bc c <> 0 /\
    n = neighbour p c (central_position Bc).

(** ** The queue *)

(** [a] is served no later than [b]: smaller priority, or equal priority
    and no larger insertion index. *)
Definition before (a b : MarkerInfo.t) : Prop :=
  MarkerInfo.cost a < MarkerInfo.cost b \/
  (MarkerInfo.cost a = MarkerInfo.cost b /\
   MarkerInfo.idx a <= MarkerInfo.idx b).

(** The priority of an entry is the conversion to [int] of the intensity
    or of the marker at its position. *)
Definition int_priority (array markers : ndarray Z) (e : MarkerInfo.t)
    : Prop :=
  MarkerInfo.cost e = to_int (at_ array (MarkerInfo.pos e)) \/
  MarkerInfo.cost e = to_int (at_ markers (MarkerInfo.pos e)).

(** ** Watershed *)

(** The test of lines 173-175 on a neighbour [n]: a valid position, not
    settled, whose intensity is below the cost recorded for it. *)
Definition improves (array : ndarray Z) (st : wstate) (n : position) : bool :=
  validposition (status st) n && negb (at_ (status st) n)
  && (at_ array n <? at_ (cost st) n).

(** Lines 176-178, for the popped position [p] and its neighbour [n]. *)
Definition relabel (array : ndarray Z) (st : wstate) (p n : position)
    : wstate :=
  mk_wstate
    (at_put (res st) n (at_ (res st) p))
    (at_put (cost st) n (at_ array n))
    (status st)
    (push (hqueue st) (MarkerInfo.new (at_ array n) (idx st) n))
    (idx st + 1).

(** The entries that the scan of [cells] around [p] pushes, the first with
    the insertion index [i], when the tests are made in the state [st]. *)
Fixpoint pushes (array Bc : ndarray Z) (p : position) (st : wstate) (i : Z)
    (cells : list position) : list MarkerInfo.t :=
  match cells with
  | [] => []
  | c :: rest =>
      let n := neighbour p c (central_position Bc) in
      if truthy (at_ Bc c) && improves array st n
      then MarkerInfo.new (at_ array n) i n :: pushes array Bc p st (i + 1) rest
      else pushes array Bc p st i rest
  end.

(** The arrays of the state have the extents of [array]. *)
Record shape_ok (array : ndarray Z) (st : wstate) : Prop := {
  ok_res_dims : dims (res st) = dims array;
  ok_res_wf : wf (res st);
  ok_cost_dims : dims (cost st) = dims array;
  ok_cost_wf : wf (cost st);
  ok_status_dims : dims (status st) = dims array;
  ok_status_wf : wf (status st)
}.

(** What a scan of [cells] around the popped position [p] makes of the
    state [st]: the queue grows by [pushes]; a valid position that some
    active cell reaches and that [improves] takes the intensity as its cost
    and the label of [p]; every other valid position keeps its cost and
    label. *)
Definition scanned (array Bc : ndarray Z) (p : position)
    (cells : list position) (st st' : wstate) : Prop :=
  shape_ok array st' /\
  status st' = status st /\
  hqueue st' = hqueue st ++ pushes array Bc p st (idx st) cells /\
  idx st' = idx st + Z.of_nat (length (pushes array Bc p st (idx st) cells)) /\
  (forall c, c ∈ cells -> truthy (at_ Bc c) = true ->
     improves array st (neighbour p c (central_position Bc)) = true ->
     at_ (cost st') (neighbour p c (central_position Bc))
     = at_ array (neighbour p c (central_position Bc)) /\
     at_ (res st') (neighbour p c (central_position Bc)) = at_ (res st) p) /\
  (forall n, validposition array n = true ->
     (forall c, c ∈ cells -> truthy (at_ Bc c) = true ->
        improves array st (neighbour p c (central_position Bc)) = true ->
        n <> neighbour p c (central_position Bc)) ->
     at_ (cost st') n = at_ (cost st) n /\ at_ (res st') n = at_ (res st) n).

(** The invariant of the main loop: the arrays have the extents of
    [array]; the queue holds valid positions, in the order of their
    insertion, with increasing insertion indices below the counter. *)
Record inv (array : ndarray Z) (st : wstate) : Prop := {
  inv_shape : shape_ok array st;
  inv_valid : forall e, e ∈ hqueue st ->
    validposition array (MarkerInfo.pos e) = true;
  inv_idx : forall e, e ∈ hqueue st -> MarkerInfo.idx e < idx st;
  inv_sorted :
    StronglySorted (fun a b => MarkerInfo.idx a < MarkerInfo.idx b)
      (hqueue st)
}.

(** The entries that the loop over the markers pushes for the positions
    [l], the first with the insertion index [i]. *)
Fixpoint marker_entries (markers : ndarray Z) (i : Z) (l : list position)
    : list MarkerInfo.t :=
  match l with
  | [] => []
  | p :: rest =>
      if truthy (at_ markers p)
      then MarkerInfo.new (at_ markers p) i p :: marker_entries markers (i + 1) rest
      else marker_entries markers i rest
  end.

(** What is asked of the arguments of [cwatershed]: [res], [array] and
    [markers] have the same extents, and [Bc] as many dimensions. *)
Record inputs_ok (res0 array markers Bc : ndarray Z) : Prop := {
  in_array : wf array;
  in_Bc : wf Bc;
  in_res : wf res0;
  in_markers : wf markers;
  in_res_dims : dims res0 = dims array;
  in_markers_dims : dims markers = dims array;
  in_ndim : length (dims Bc) = length (dims array)
}.

(** The state at the head of the main loop after [k] iterations. *)
Definition reached (T : itype) (res0 array markers Bc : ndarray Z) (k : nat)
    : wstate :=
  iterate k array Bc (seeds T res0 array markers).

(** The positions whose intensity is below their recorded cost: those that
    a scan can still push. *)
Definition pending (array : ndarray Z) (st : wstate) : nat :=
  length (filter (fun n => at_ array n < at_ (cost st) n) (positions array)).

(** The quantity that every iteration of the main loop decreases by one. *)
Definition measure (array : ndarray Z) (st : wstate) : nat :=
  (length (hqueue st) + pending array st)%nat.

(** ** Further vocabulary *)



(** [v] is the marker of some valid position. *)
Definition marker_label (array markers : ndarray Z) (v : Z) : Prop :=
  exists p, validposition array p = true /\ at_ markers p <> 0 /\
    v = at_ markers p.

(** The watershed has not come to [n]: no marker, the initial cost and
    label, not settled. *)
Definition untouched (T : itype) (res0 markers : ndarray Z) (st : wstate)
    (n : position) : Prop :=
  at_ markers n = 0 /\ at_ (cost st) n = max_value T /\
  at_ (res st) n = at_ res0 n /\ at_ (status st) n = false.

(** [flood_path Bc ok s n]: [n] is reached from [s] by steps through
    active cells of [Bc], every step to another position, along positions
    that all satisfy [ok]. *)
Inductive flood_path (Bc : ndarray Z) (ok : position -> Prop)
    : position -> position -> Prop :=
  | path_start s : ok s -> flood_path Bc ok s s
  | path_step s p n c :
      flood_path Bc ok s p ->
      validposition Bc c = true -> at_ Bc c <> 0 ->
      n = neighbour p c (central_position Bc) -> n <> p -> ok n ->
      flood_path Bc ok s n.

(** [p] belongs to the region of the marker at [s]: a valid position,
    settled, with the label of [s]. *)
Definition in_region (array markers : ndarray Z) (st : wstate)
    (s p : position) : Prop :=
  validposition array p = true /\ at_ (status st) p = true /\
  at_ (res st) p = at_ markers s.

(** Two arrays of the same extents and the same buffer length. *)
Definition same_shape (a b : ndarray Z) : Prop :=
  dims a = dims b /\ length (data a) = length (data b).

End Spec.

(* ===================================================================== *)
(** * Facts about positions and arrays *)
(* ===================================================================== *)

Module ArrayFacts.
Import Elem numpy Spec.

Lemma truthy_true z : truthy z = true <-> z <> 0.
Proof. unfold truthy. rewrite negb_true_iff, Z.eqb_neq. tauto. Qed.

Lemma truthy_false z : truthy z = false <-> z = 0.
Proof. unfold truthy. rewrite negb_false_iff, Z.eqb_eq. tauto. Qed.

Lemma in_bounds_length ds p :
  in_bounds ds p = true -> length p = length ds.
Proof.
  revert p; induction ds as [|d ds IH]; intros [|x xs] H; simpl in *;
    try discriminate; auto.
  apply andb_true_iff in H as [_ H]. f_equal. auto.
Qed.

Lemma in_bounds_cons d ds x xs :
  in_bounds (d :: ds) (x :: xs) = true <->
  0 <= x < d /\ in_bounds ds xs = true.
Proof.
  simpl. rewrite !andb_true_iff, Z.leb_le, Z.ltb_lt. tauto.
Qed.

Lemma elem_of_indices ds p :
  p ∈ indices ds <-> in_bounds ds p = true.
Proof.
  revert p; induction ds as [|d ds IH]; intros p; simpl.
  - rewrite list_elem_of_singleton. destruct p; simpl; split; congruence.
  - rewrite list_elem_of_bind. split.
    + intros (x & Hp & Hx). apply list_elem_of_fmap in Hp as (q & -> & Hq).
      apply elem_of_seqZ in Hx. apply in_bounds_cons. split; [lia|].
      by apply IH.
    + destruct p as [|x xs]; [discriminate|].
      intros [Hx Hxs]%in_bounds_cons. exists x. split.
      * apply list_elem_of_fmap. exists xs. split; [done|]. by apply IH.
      * apply elem_of_seqZ. lia.
Qed.

Lemma NoDup_indices ds : NoDup (indices ds).
Proof.
  induction ds as [|d ds IH]; simpl.
  - apply NoDup_singleton.
  - apply NoDup_bind.
    + intros x1 x2 y _ _ H1 H2.
      apply list_elem_of_fmap in H1 as (q1 & -> & _).
      apply list_elem_of_fmap in H2 as (q2 & Heq & _). congruence.
    + intros x _. apply NoDup_fmap_2; [|done]. intros a b; congruence.
    + apply NoDup_seqZ.
Qed.

Lemma product_nonneg ds : Forall (fun d => 0 <= d) ds -> 0 <= product ds.
Proof.
  induction 1 as [|d ds Hd _ IH]; simpl; [lia|]. apply Z.mul_nonneg_nonneg; lia.
Qed.

Lemma length_bind_cons (l : list Z) (qs : list position) :
  length (l ≫= fun x => cons x <$> qs) = (length l * length qs)%nat.
Proof.
  induction l as [|x l IHl]; [done|].
  rewrite bind_cons, length_app, length_fmap, IHl. done.
Qed.

Lemma length_indices ds :
  Forall (fun d => 0 <= d) ds -> length (indices ds) = Z.to_nat (product ds).
Proof.
  induction 1 as [|d ds Hd Hds IH]; [done|].
  pose proof (product_nonneg ds Hds) as HP.
  cbn [indices product fold_right].
  rewrite length_bind_cons, length_seqZ, IH.
  unfold product in *. rewrite Z2Nat.inj_mul; lia.
Qed.

Lemma ravel_acc ds p acc :
  length p = length ds -> ravel ds p acc = acc * product ds + ravel ds p 0.
Proof.
  revert p acc; induction ds as [|d ds IH]; intros [|x xs] acc H;
    simpl in H; try discriminate; cbn [ravel product fold_right]; try lia.
  injection H as H. fold (product ds).
  rewrite (IH xs (acc * d + x)), (IH xs (0 * d + x)) by done. lia.
Qed.

Lemma ravel_cons d ds x xs :
  length xs = length ds ->
  ravel (d :: ds) (x :: xs) 0 = x * product ds + ravel ds xs 0.
Proof.
  intros H. cbn [ravel]. rewrite ravel_acc by done. lia.
Qed.

Lemma ravel_bounds ds p :
  in_bounds ds p = true -> 0 <= ravel ds p 0 < product ds.
Proof.
  revert p; induction ds as [|d ds IH]; intros [|x xs] H;
    try discriminate.
  - simpl. lia.
  - apply in_bounds_cons in H as [Hx Hxs].
    rewrite ravel_cons by (by apply in_bounds_length).
    specialize (IH xs Hxs). simpl. nia.
Qed.

Lemma ravel_inj ds p q :
  in_bounds ds p = true -> in_bounds ds q = true ->
  ravel ds p 0 = ravel ds q 0 -> p = q.
Proof.
  revert p q; induction ds as [|d ds IH]; intros [|x xs] [|y ys] Hp Hq;
    try discriminate; [done|].
  apply in_bounds_cons in Hp as [Hx Hxs].
  apply in_bounds_cons in Hq as [Hy Hys].
  rewrite !ravel_cons by (by apply in_bounds_length).
  pose proof (ravel_bounds ds xs Hxs). pose proof (ravel_bounds ds ys Hys).
  intros Heq.
  assert (x = y) as -> by nia.
  f_equal. apply IH; auto. lia.
Qed.

Lemma ravel_block d ds x :
  Forall (fun d => 0 <= d) ds ->
  (fun p => ravel ds p 0) <$> indices ds = seqZ 0 (product ds) ->
  (fun p => ravel (d :: ds) p 0) <$> (cons x <$> indices ds)
  = seqZ (x * product ds) (product ds).
Proof.
  intros Hds IH. rewrite <- list_fmap_compose.
  replace (x * product ds) with (x * product ds + 0) by lia.
  rewrite <- fmap_add_seqZ, <- IH, <- list_fmap_compose.
  apply list_fmap_ext. intros i q Hq. simpl.
  rewrite ravel_acc; [lia|].
  apply in_bounds_length, elem_of_indices, list_elem_of_lookup. eauto.
Qed.

(** The iteration order is the order of the buffer: the offsets of the
    positions visited are [0], [1], ..., in turn. *)
Lemma ravel_indices ds :
  Forall (fun d => 0 <= d) ds ->
  (fun p => ravel ds p 0) <$> indices ds = seqZ 0 (product ds).
Proof.
  induction 1 as [|d ds Hd Hds IH]; [done|].
  pose proof (product_nonneg ds Hds) as HP.
  cbn [indices product fold_right]. fold (product ds).
  assert (forall k : nat,
    (fun p => ravel (d :: ds) p 0) <$>
      (seqZ 0 (Z.of_nat k) ≫= fun x => cons x <$> indices ds)
    = seqZ 0 (Z.of_nat k * product ds)) as Hk.
  { induction k as [|k IHk]; [done|].
    rewrite seqZ_S, bind_app, fmap_app, IHk, bind_singleton.
    rewrite ravel_block by done.
    replace (Z.of_nat (S k) * product ds)
      with (Z.of_nat k * product ds + product ds) by lia.
    rewrite seqZ_app by nia. done. }
  specialize (Hk (Z.to_nat d)). by rewrite Z2Nat.id in Hk.
Qed.

Lemma ravel_surj ds (i : nat) :
  Forall (fun d => 0 <= d) ds -> (i < Z.to_nat (product ds))%nat ->
  exists p, in_bounds ds p = true /\ Z.to_nat (ravel ds p 0) = i.
Proof.
  intros Hds Hi.
  assert (seqZ 0 (product ds) !! i = Some (Z.of_nat i)) as Hl.
  { rewrite lookup_seqZ_lt by lia. f_equal; lia. }
  rewrite <- ravel_indices, list_lookup_fmap in Hl by done.
  destruct (indices ds !! i) as [p|] eqn:Hp; [|done].
  exists p. split.
  - apply elem_of_indices, list_elem_of_lookup. eauto.
  - simpl in Hl. injection Hl as Hl. lia.
Qed.

Section array.
Context {A : Type} `{!Inhabited A}.
Implicit Types (a : ndarray A) (p q : position) (v : A).

Lemma dims_at_put a p v : dims (at_put a p v) = dims a.
Proof. done. Qed.

Lemma validposition_at_put a p v q :
  validposition (at_put a p v) q = validposition a q.
Proof. done. Qed.

Lemma positions_at_put a p v : positions (at_put a p v) = positions a.
Proof. done. Qed.

Lemma size_at_put a p v : size (at_put a p v) = size a.
Proof. done. Qed.

Lemma wf_at_put a p v : wf a -> wf (at_put a p v).
Proof.
  intros [Hd Hl]. split; [done|]. simpl. by rewrite length_insert.
Qed.

Lemma elem_of_positions a p : p ∈ positions a <-> validposition a p = true.
Proof. apply elem_of_indices. Qed.

Lemma NoDup_positions a : NoDup (positions a).
Proof. apply NoDup_indices. Qed.

Lemma take_positions {B} a (b : ndarray B) :
  wf a -> dims b = dims a -> take (size b) (positions a) = positions a.
Proof.
  intros [Hd _] Hb. apply take_ge. unfold positions, size.
  rewrite Hb, length_indices by done. lia.
Qed.

Lemma offset_lt a p : wf a -> validposition a p = true ->
  (offset a p < length (data a))%nat.
Proof.
  intros [Hd Hl] Hp. rewrite Hl. unfold offset, size.
  pose proof (ravel_bounds _ _ Hp). lia.
Qed.

Lemma offset_inj a p q :
  validposition a p = true -> validposition a q = true ->
  offset a p = offset a q -> p = q.
Proof.
  intros Hp Hq Heq. apply (ravel_inj (dims a)); auto.
  pose proof (ravel_bounds _ _ Hp). pose proof (ravel_bounds _ _ Hq).
  unfold offset in Heq. lia.
Qed.

Lemma at_put_eq a p v :
  wf a -> validposition a p = true -> at_ (at_put a p v) p = v.
Proof.
  intros Hwf Hp. unfold at_, at_put, offset; simpl.
  apply list_lookup_total_insert_eq. by apply offset_lt.
Qed.

Lemma at_put_ne a p q v :
  validposition a p = true -> validposition a q = true -> p <> q ->
  at_ (at_put a p v) q = at_ a q.
Proof.
  intros Hp Hq Hne. unfold at_, at_put; simpl.
  apply list_lookup_total_insert_ne. intros Heq. apply Hne.
  by apply (offset_inj a).
Qed.

Lemma at_put_case a p q v :
  wf a -> validposition a p = true -> validposition a q = true ->
  at_ (at_put a p v) q = if decide (p = q) then v else at_ a q.
Proof.
  intros. case_decide; subst; [by apply at_put_eq | by apply at_put_ne].
Qed.

Lemma offset_surj a (i : nat) :
  wf a -> (i < length (data a))%nat ->
  exists p, validposition a p = true /\ offset a p = i.
Proof.
  intros [Hd Hl] Hi. apply ravel_surj; [done|]. by rewrite Hl in Hi.
Qed.

Lemma wf_filled ds v : Forall (fun d => 0 <= d) ds -> wf (filled ds v).
Proof. intros H. split; [done|]. simpl. by rewrite length_replicate. Qed.

Lemma at_filled ds v p : in_bounds ds p = true -> at_ (filled ds v) p = v.
Proof.
  intros Hp. unfold at_, filled, offset; simpl.
  apply lookup_total_replicate_2. pose proof (ravel_bounds _ _ Hp). lia.
Qed.

End array.

Lemma elem_of_take_positions {A} (a : ndarray A) (k : nat) p :
  p ∈ take k (positions a) -> validposition a p = true.
Proof.
  intros (i & Hi & _)%elem_of_take. apply elem_of_indices, list_elem_of_lookup.
  eauto.
Qed.

Lemma padd_length p q : length p = length q -> length (padd p q) = length p.
Proof. intros H. unfold padd. rewrite length_zip_with. lia. Qed.

(** Well-formedness of a literal array. *)
Ltac wf_by_compute := split; [repeat constructor; lia | reflexivity].

(** Two arrays of the same extents that agree at every valid position are
    equal. *)
Lemma ndarray_ext {A} `{!Inhabited A} (a b : ndarray A) :
  wf a -> wf b -> dims a = dims b ->
  (forall p, validposition a p = true -> at_ a p = at_ b p) ->
  a = b.
Proof.
  intros Ha Hb Hd Hat. destruct a as [da xa], b as [db xb]. simpl in Hd.
  subst db. f_equal.
  destruct Ha as [Hda Hla], Hb as [Hdb Hlb]. unfold size in *; simpl in *.
  apply (list_eq_same_length _ _ (Z.to_nat (product da))); [done..|].
  intros i x y Hi Hx Hy.
  destruct (ravel_surj da i Hda Hi) as (p & Hp & Hoff).
  specialize (Hat p Hp). unfold at_, offset in Hat; simpl in Hat.
  rewrite Hoff in Hat.
  apply list_lookup_total_correct in Hx, Hy. congruence.
Qed.

End ArrayFacts.

(* ===================================================================== *)
(** * The centre of the structuring element *)
(* ===================================================================== *)

Module Geometry.
Import Elem numpy Morph Spec ArrayFacts.

Lemma neighbour_centre p ce : length ce = length p -> neighbour p ce ce = p.
Proof.
  unfold neighbour, psub, padd.
  revert ce; induction p as [|x p IH]; intros [|c ce] H;
    simpl in *; try discriminate; [done|].
  injection H as H. f_equal; [lia | by apply IH].
Qed.

Lemma neighbour_inj_src p p' c ce :
  length p = length c -> length p' = length c -> length ce = length c ->
  neighbour p c ce = neighbour p' c ce -> p = p'.
Proof.
  unfold neighbour, psub, padd.
  revert p p' ce; induction c as [|y c IH]; intros [|x p] [|x' p'] [|z ce];
    simpl; try discriminate; [done|].
  intros [= Hp] [= Hp'] [= Hce] [= Hx Hrest].
  f_equal; [lia|]. by apply (IH p p' ce).
Qed.

Lemma centre_in_bounds ds :
  in_bounds ds (map (fun d => Z.quot d 2) ds) = true <->
  Forall (fun d => 0 < d) ds.
Proof.
  induction ds as [|d ds IH]; simpl.
  - split; [constructor | done].
  - rewrite !andb_true_iff, Z.leb_le, Z.ltb_lt, IH, Forall_cons.
    destruct (Z.lt_ge_cases 0 d) as [Hd|Hd].
    + rewrite Z.quot_div_nonneg by lia.
      pose proof (Z_div_mod_eq_full d 2).
      pose proof (Z.mod_pos_bound d 2 eq_refl).
      split; [intros [_ ?] | intros [_ ?]]; (split; [lia | done]).
    + split; [intros [[? ?] _] | intros [? _]]; lia.
Qed.

(** X1. The centre that [central_position] computes is a cell of the
    structuring element exactly when every extent is positive (an empty
    extent has no centre cell), and the neighbour of a position through
    the centre cell is the position itself. *)
Theorem centre_cell {A} (Bc : ndarray A) :
  (validposition Bc (central_position Bc) = true <->
   Forall (fun d => 0 < d) (dims Bc)) /\
  (forall p, length p = length (dims Bc) ->
     neighbour p (central_position Bc) (central_position Bc) = p).
Proof.
  split; [apply centre_in_bounds|].
  intros p Hp. apply neighbour_centre. unfold central_position.
  by rewrite length_map.
Qed.

Lemma centre_cell_witness :
  validposition plus3x3 (central_position plus3x3) = true /\
  neighbour [2; 0] (central_position plus3x3) (central_position plus3x3)
  = [2; 0].
Proof.
  split.
  - apply (centre_cell plus3x3). repeat constructor; lia.
  - apply (centre_cell plus3x3). reflexivity.
Defined.

End Geometry.

(* ===================================================================== *)
(** * Erosion *)
(* ===================================================================== *)

Module Erode.
Import Elem numpy Morph Spec ArrayFacts.

(** A loop that stores [f rp] at every position [rp] of a list. *)
Section fold_put.
Variable f : position -> Z.

Let body := fun (r : ndarray Z) (rp : position) => at_put r rp (f rp).

Lemma fold_put_dims l r : dims (fold_left body l r) = dims r.
Proof. revert r; induction l as [|x l IH]; intros r; simpl; [done|]. by rewrite IH. Qed.

Lemma fold_put_wf l r : wf r -> wf (fold_left body l r).
Proof.
  revert r; induction l as [|x l IH]; intros r Hr; simpl; [done|].
  apply IH. by apply wf_at_put.
Qed.

Lemma fold_put_at l r p :
  wf r -> NoDup l -> (forall q, q ∈ l -> validposition r q = true) ->
  validposition r p = true ->
  at_ (fold_left body l r) p = if decide (p ∈ l) then f p else at_ r p.
Proof.
  revert r; induction l as [|x l IH]; intros r Hr Hnd Hl Hp; cbn [fold_left].
  - rewrite decide_False; [done | apply not_elem_of_nil].
  - apply NoDup_cons in Hnd as [Hx Hnd].
    rewrite IH; [| by apply wf_at_put | done | | exact Hp].
    + unfold body. rewrite at_put_case by (auto; apply Hl; left).
      destruct (decide (p ∈ l)) as [Hin|Hin].
      * rewrite decide_True; [done | by right].
      * destruct (decide (x = p)) as [->|Hne].
        -- rewrite decide_True; [done | by left].
        -- rewrite decide_False; [done|].
           intros [?|?]%elem_of_cons; congruence.
    + intros q Hq. unfold body. rewrite validposition_at_put. apply Hl. by right.
Qed.

End fold_put.

Lemma erode_scan_spec array Bc centre rp cells :
  erode_scan array Bc centre rp cells = true <->
  forall c, c ∈ cells -> at_ Bc c <> 0 ->
    validposition array (neighbour rp c centre) = true ->
    at_ array (neighbour rp c centre) <> 0.
Proof.
  induction cells as [|c cells IH]; simpl.
  - split; [|done]. intros _ c Hc. by apply elem_of_nil in Hc.
  - destruct (truthy (at_ Bc c)) eqn:Hact.
    + destruct (validposition array (neighbour rp c centre)) eqn:Hv; simpl.
      * destruct (truthy (at_ array (neighbour rp c centre))) eqn:Hn; simpl.
        -- rewrite IH. split.
           ++ intros H c' [->|Hc']%elem_of_cons; [|by apply H].
              intros _ _. by apply truthy_true.
           ++ intros H c' Hc'. apply H. by right.
        -- split; [done|]. intros H. exfalso.
           apply truthy_false in Hn. apply truthy_true in Hact.
           apply (H c); [by left | done | done | done].
      * rewrite IH. split.
        -- intros H c' [->|Hc']%elem_of_cons; [congruence | by apply H].
        -- intros H c' Hc'. apply H. by right.
    + rewrite IH. apply truthy_false in Hact. split.
      * intros H c' [->|Hc']%elem_of_cons; [congruence | by apply H].
      * intros H c' Hc'. apply H. by right.
Qed.

Lemma erode_at res array Bc p :
  wf res -> validposition res p = true ->
  at_ (erode res array Bc) p
  = of_bool (erode_scan array Bc (central_position Bc) p
               (take (size Bc) (positions Bc))).
Proof.
  intros Hres Hp. unfold erode. cbv zeta.
  rewrite (take_positions res res) by done.
  rewrite (fold_put_at (fun rp => of_bool _)); auto using NoDup_positions.
  - rewrite decide_True; [done | by apply elem_of_positions].
  - intros q. apply elem_of_positions.
Qed.

(** C5. For a valid position [p], [erode] stores 1 at [p] exactly when
    every active cell of [Bc] whose neighbour of [p] is a valid position
    of [array] finds a nonzero element there, and 0 otherwise; a neighbour
    outside the array imposes nothing. *)
Theorem erode_spec res array Bc p :
  wf res -> wf Bc -> validposition res p = true ->
  (neighbours_on array Bc p -> at_ (erode res array Bc) p = 1) /\
  (~ neighbours_on array Bc p -> at_ (erode res array Bc) p = 0).
Proof.
  intros Hres HBc Hp. rewrite erode_at by done.
  rewrite (take_positions Bc Bc) by done.
  destruct (erode_scan _ _ _ _ _) eqn:Hscan; simpl.
  - split; [done|]. intros Hn. exfalso. apply Hn.
    intros c Hc. apply (proj1 (erode_scan_spec _ _ _ _ _) Hscan).
    by apply elem_of_positions.
  - split; [|done]. intros Hn. exfalso.
    assert (erode_scan array Bc (central_position Bc) p (positions Bc) = true)
      as Ht; [|congruence].
    apply erode_scan_spec. intros c Hc. apply Hn. by apply elem_of_positions.
Qed.

(** C10. Every element of the array that [erode] fills is 0 or 1,
    whatever the elements of the input are. *)
Theorem erode_binary res array Bc :
  wf res -> Forall (fun v => v = 0 \/ v = 1) (data (erode res array Bc)).
Proof.
  intros Hres. apply Forall_lookup. intros i v Hi.
  assert (wf (erode res array Bc)) as Hwf by by apply fold_put_wf.
  destruct (offset_surj (erode res array Bc) i Hwf) as (p & Hp & Hoff).
  { by apply lookup_lt_Some in Hi. }
  assert (validposition res p = true) as Hp'.
  { unfold validposition in *. unfold erode in Hp.
    by rewrite fold_put_dims in Hp. }
  assert (at_ (erode res array Bc) p = v) as <-.
  { unfold at_. rewrite Hoff. by apply list_lookup_total_correct. }
  rewrite erode_at by done. destruct (erode_scan _ _ _ _ _); simpl; auto.
Qed.

(** ** Examples *)

(** The plus-shaped element turns off the zero and the positions next to
    it, and nothing else; the positions on the border stay on. *)
Example erode_plus :
  py_erode (mk_ndarray [3; 3] [1; 1; 1; 1; 1; 1; 1; 0; 1]) plus3x3
  = mk_ndarray [3; 3] [1; 1; 1; 1; 0; 1; 0; 0; 0].
Proof. reflexivity. Qed.

(** In [1 1 0] under [1 1 1], index 0 has its left neighbour outside the
    array and stays on; index 1 has the zero as its right neighbour. *)
Lemma erode_spec_witness :
  at_ (erode (array_like (row [1; 1; 0]) 0) (row [1; 1; 0]) (row [1; 1; 1]))
    [0] = 1 /\
  at_ (erode (array_like (row [1; 1; 0]) 0) (row [1; 1; 0]) (row [1; 1; 1]))
    [1] = 0.
Proof.
  split.
  - apply (erode_spec (array_like (row [1; 1; 0]) 0) (row [1; 1; 0])
             (row [1; 1; 1]) [0]); [wf_by_compute | wf_by_compute | reflexivity |].
    intros c Hc _. apply elem_of_positions in Hc.
    change (positions (row [1; 1; 1])) with [[0]; [1]; [2]] in Hc.
    repeat (apply elem_of_cons in Hc as [->|Hc]; [vm_compute; congruence|]).
    by apply elem_of_nil in Hc.
  - apply (erode_spec (array_like (row [1; 1; 0]) 0) (row [1; 1; 0])
             (row [1; 1; 1]) [1]); [wf_by_compute | wf_by_compute | reflexivity |].
    intros H. apply (H [2]); vm_compute; congruence.
Defined.

Lemma erode_binary_witness :
  Forall (fun v => v = 0 \/ v = 1)
    (data (erode (array_like (row [7; -3; 0]) 0) (row [7; -3; 0])
             (row [2; 5; 9]))).
Proof.
  apply (erode_binary (array_like (row [7; -3; 0]) 0)). wf_by_compute.
Defined.

(** ** Further properties of [erode] *)

Lemma erode_dims res array Bc : dims (erode res array Bc) = dims res.
Proof. apply fold_put_dims. Qed.

Lemma erode_wf res array Bc : wf res -> wf (erode res array Bc).
Proof. apply fold_put_wf. Qed.

(** X2. [erode] stores into every element of [res]: what [res] held
    before the call has no influence on the result. *)
Theorem erode_overwrites res res' array Bc :
  wf res -> wf res' -> dims res = dims res' ->
  erode res array Bc = erode res' array Bc.
Proof.
  intros Hres Hres' Hd. apply ndarray_ext; auto using erode_wf.
  - by rewrite !erode_dims.
  - intros p Hp. unfold validposition in Hp. rewrite erode_dims in Hp.
    rewrite !erode_at; try done. unfold validposition. by rewrite <- Hd.
Qed.

Lemma erode_overwrites_witness :
  erode (row [9; -4; 7]) (row [1; 1; 0]) (row [1; 1; 1])
  = erode (array_like (row [1; 1; 0]) 0) (row [1; 1; 0]) (row [1; 1; 1]).
Proof.
  apply (erode_overwrites (row [9; -4; 7]) (array_like (row [1; 1; 0]) 0));
    [wf_by_compute | wf_by_compute | reflexivity].
Defined.

(** X3. [erode] is monotone in the image: turning elements of [array]
    from zero to nonzero never turns a position of the result off. *)
Theorem erode_monotone res array array' Bc p :
  wf res -> validposition res p = true -> dims array = dims array' ->
  (forall q, validposition array q = true -> at_ array q <> 0 ->
     at_ array' q <> 0) ->
  at_ (erode res array Bc) p <= at_ (erode res array' Bc) p.
Proof.
  intros Hres Hp Hd Hle. rewrite !erode_at by done.
  destruct (erode_scan array Bc _ _ _) eqn:Hs; simpl;
    [|destruct (erode_scan array' Bc _ _ _); simpl; lia].
  assert (erode_scan array' Bc (central_position Bc) p
            (take (size Bc) (positions Bc)) = true) as ->; [|simpl; lia].
  apply erode_scan_spec. intros c Hc Hact Hv.
  assert (validposition array (neighbour p c (central_position Bc)) = true)
    as Hv' by (unfold validposition in *; by rewrite Hd).
  apply Hle; [done|].
  by apply (proj1 (erode_scan_spec _ _ _ _ _) Hs c).
Qed.

Lemma erode_monotone_witness :
  at_ (erode (array_like (row [1; 0; 1]) 0) (row [1; 0; 1]) (row [1; 1; 1])) [0]
  <= at_ (erode (array_like (row [1; 0; 1]) 0) (row [1; 3; 1]) (row [1; 1; 1]))
       [0].
Proof.
  apply (erode_monotone (array_like (row [1; 0; 1]) 0) (row [1; 0; 1])
           (row [1; 3; 1]) (row [1; 1; 1]) [0]);
    [wf_by_compute | reflexivity | reflexivity |].
  intros q Hq%elem_of_positions.
  change (positions (row [1; 0; 1])) with [[0]; [1]; [2]] in Hq.
  repeat (apply elem_of_cons in Hq as [->|Hq]; [vm_compute; congruence|]).
  by apply elem_of_nil in Hq.
Defined.

(** X4. When the centre cell of [Bc] is active, [erode] never turns on a
    position at which the image is zero: the result is below the
    indicator of the image. *)
Theorem erode_anti_extensive res array Bc p :
  wf res -> wf Bc -> dims res = dims array ->
  length (dims Bc) = length (dims array) ->
  validposition res p = true ->
  validposition Bc (central_position Bc) = true ->
  at_ Bc (central_position Bc) <> 0 ->
  at_ array p = 0 ->
  at_ (erode res array Bc) p = 0.
Proof.
  intros Hres HBc Hd Hnd Hp Hce Hact Hzero. rewrite erode_at by done.
  rewrite (take_positions Bc Bc) by done.
  destruct (erode_scan _ _ _ _ _) eqn:Hs; [|done]. exfalso.
  assert (neighbour p (central_position Bc) (central_position Bc) = p) as Hn.
  { apply Geometry.neighbour_centre. unfold central_position.
    rewrite length_map, Hnd, <- Hd. symmetry. by apply in_bounds_length. }
  apply (proj1 (erode_scan_spec _ _ _ _ _) Hs (central_position Bc));
    rewrite ?Hn; try done.
  - by apply elem_of_positions.
  - unfold validposition in *. by rewrite <- Hd.
Qed.

Lemma erode_anti_extensive_witness :
  at_ (erode (array_like (row [1; 0; 1]) 0) (row [1; 0; 1]) (row [0; 1; 0])) [1]
  = 0.
Proof.
  apply (erode_anti_extensive (array_like (row [1; 0; 1]) 0) (row [1; 0; 1])
           (row [0; 1; 0]) [1]);
    [wf_by_compute | wf_by_compute | reflexivity | reflexivity | reflexivity
    | reflexivity | discriminate | reflexivity].
Defined.

(** X5. A structuring element without an active cell imposes nothing:
    [erode] turns every position on, also where the image is zero. *)
Theorem erode_no_active_cell res array Bc p :
  wf res -> validposition res p = true ->
  (forall c, validposition Bc c = true -> at_ Bc c = 0) ->
  at_ (erode res array Bc) p = 1.
Proof.
  intros Hres Hp Hnone. rewrite erode_at by done.
  assert (erode_scan array Bc (central_position Bc) p
            (take (size Bc) (positions Bc)) = true) as ->; [|done].
  apply erode_scan_spec. intros c Hc%elem_of_take_positions Hact.
  by destruct (Hact (Hnone c Hc)).
Qed.

Lemma erode_no_active_cell_witness :
  at_ (erode (array_like (row [0; 0]) 0) (row [0; 0]) (row [0; 0; 0])) [1] = 1.
Proof.
  apply (erode_no_active_cell (array_like (row [0; 0]) 0) (row [0; 0])
           (row [0; 0; 0]) [1]); [wf_by_compute | reflexivity |].
  intros c Hc%elem_of_positions.
  change (positions (row [0; 0; 0])) with [[0]; [1]; [2]] in Hc.
  repeat (apply elem_of_cons in Hc as [->|Hc]; [reflexivity|]).
  by apply elem_of_nil in Hc.
Defined.

End Erode.

(* ===================================================================== *)
(** * Dilation *)
(* ===================================================================== *)

Module Dilate.
Import Elem numpy Morph Spec ArrayFacts.

Lemma put_list_dims ws r : dims (fold_left put ws r) = dims r.
Proof.
  revert r; induction ws as [|w ws IH]; intros r; simpl; [done|].
  by rewrite IH.
Qed.

Lemma put_list_wf ws r : wf r -> wf (fold_left put ws r).
Proof.
  revert r; induction ws as [|w ws IH]; intros r Hr; simpl; [done|].
  apply IH. by apply wf_at_put.
Qed.

Lemma dilate_cell_writes T res Bc centre pos v r c :
  dims r = dims res ->
  dilate_cell T Bc centre pos v r c
  = fold_left put (cell_writes T res Bc centre pos v c) r.
Proof.
  intros Hd. unfold dilate_cell, cell_writes, validposition. rewrite Hd.
  destruct (truthy (at_ Bc c)); [|done].
  by destruct (in_bounds (dims res) (neighbour pos c centre)).
Qed.

Lemma dilate_cells_writes T res Bc centre pos v cells r :
  dims r = dims res ->
  fold_left (dilate_cell T Bc centre pos v) cells r
  = fold_left put (cells ≫= cell_writes T res Bc centre pos v) r.
Proof.
  revert r; induction cells as [|c cells IH]; intros r Hd; [done|].
  rewrite bind_cons, fold_left_app. cbn [fold_left].
  rewrite (dilate_cell_writes T res) by done.
  apply IH. by rewrite put_list_dims.
Qed.

Lemma dilate_pos_writes T res array Bc centre r pos :
  dims r = dims res ->
  dilate_pos T array Bc centre r pos
  = fold_left put (pos_writes T res array Bc centre pos) r.
Proof.
  intros Hd. unfold dilate_pos, pos_writes.
  destruct (truthy (at_ array pos)); [|done].
  by apply dilate_cells_writes.
Qed.

(** [dilate] performs the stores of [writes], in that order. *)
Lemma dilate_writes T res array Bc :
  dilate T res array Bc = fold_left put (writes T res array Bc) res.
Proof.
  unfold dilate, writes. cbv zeta.
  generalize (take (size res) (positions array)) as l.
  assert (forall l r, dims r = dims res ->
    fold_left (dilate_pos T array Bc (central_position Bc)) l r
    = fold_left put
        (l ≫= pos_writes T res array Bc (central_position Bc)) r) as H.
  { induction l as [|x l IH]; intros r Hd; [done|].
    rewrite bind_cons, fold_left_app. cbn [fold_left].
    rewrite (dilate_pos_writes T res) by done.
    apply IH. by rewrite put_list_dims. }
  intros l. by apply H.
Qed.

(** What the list of stores holds. *)
Lemma elem_of_writes T res array Bc n v :
  (n, v) ∈ writes T res array Bc <->
  exists p c,
    p ∈ take (size res) (positions array) /\ at_ array p <> 0 /\
    c ∈ take (size Bc) (positions Bc) /\ at_ Bc c <> 0 /\
    n = neighbour p c (central_position Bc) /\
    validposition res n = true /\
    v = add T (at_ array p) (at_ Bc c).
Proof.
  unfold writes. rewrite list_elem_of_bind. split.
  - intros (p & Hw & Hp). unfold pos_writes in Hw.
    destruct (truthy (at_ array p)) eqn:Hsrc; [|by apply elem_of_nil in Hw].
    apply list_elem_of_bind in Hw as (c & Hw & Hc). unfold cell_writes in Hw.
    destruct (truthy (at_ Bc c)) eqn:Hact; simpl in Hw;
      [|by apply elem_of_nil in Hw].
    destruct (validposition res _) eqn:Hv; [|by apply elem_of_nil in Hw].
    apply list_elem_of_singleton in Hw. injection Hw as -> ->.
    exists p, c. apply truthy_true in Hsrc, Hact. done.
  - intros (p & c & Hp & Hsrc & Hc & Hact & -> & Hv & ->).
    exists p. split; [|done]. unfold pos_writes.
    apply truthy_true in Hsrc, Hact. rewrite Hsrc.
    apply list_elem_of_bind. exists c. split; [|done].
    unfold cell_writes. rewrite Hact, Hv. simpl. by left.
Qed.

Lemma put_list_untouched ws r n :
  (forall w, w ∈ ws -> validposition r w.1 = true) ->
  validposition r n = true ->
  (forall v, (n, v) ∉ ws) ->
  at_ (fold_left put ws r) n = at_ r n.
Proof.
  revert r; induction ws as [|[m v] ws IH]; intros r Hws Hn Hno; [done|].
  cbn [fold_left]. rewrite IH.
  - unfold put; simpl. apply at_put_ne; [|done|].
    + apply (Hws (m, v)). by left.
    + intros ->. apply (Hno v). by left.
  - intros w Hw. unfold put. rewrite validposition_at_put. apply Hws. by right.
  - done.
  - intros v' Hv'. apply (Hno v'). by right.
Qed.

Lemma put_list_last ws1 ws2 r n v :
  wf r ->
  (forall w, w ∈ ws1 ++ (n, v) :: ws2 -> validposition r w.1 = true) ->
  (forall v', (n, v') ∉ ws2) ->
  at_ (fold_left put (ws1 ++ (n, v) :: ws2) r) n = v.
Proof.
  intros Hr Hws Hno. rewrite fold_left_app. cbn [fold_left].
  assert (validposition r n = true) as Hn.
  { apply (Hws (n, v)). apply elem_of_app. right. by left. }
  rewrite put_list_untouched.
  - unfold put; simpl. apply at_put_eq; [by apply put_list_wf|].
    unfold validposition. by rewrite put_list_dims.
  - intros w Hw. unfold put, validposition; simpl. rewrite put_list_dims.
    apply Hws. apply elem_of_app. right. by right.
  - unfold put, validposition; simpl. by rewrite put_list_dims.
  - done.
Qed.

Lemma writes_valid T res array Bc w :
  w ∈ writes T res array Bc -> validposition res w.1 = true.
Proof.
  destruct w as [n v]. intros Hw.
  apply elem_of_writes in Hw as (p & c & _ & _ & _ & _ & _ & Hv & _). done.
Qed.

(** C6. [dilate] performs the stores of [writes] in the order of the
    scan, each overwriting what the position held.  The stores that target
    a valid position [n] are the values [array.at(p) + w], one for every
    nonzero source [p] and active cell of weight [w] whose neighbour of
    [p] is [n]; the value left at [n] is the one of the last such store,
    and a position that no nonzero source reaches through an active cell
    keeps the value it had in [res] (zero, for the array that [py_dilate]
    allocates). *)
Theorem dilate_last_writer T res array Bc n :
  wf res -> wf array -> wf Bc -> dims res = dims array ->
  validposition res n = true ->
  dilate T res array Bc = fold_left put (writes T res array Bc) res /\
  (forall v, (n, v) ∈ writes T res array Bc <->
     exists p c,
       validposition array p = true /\ at_ array p <> 0 /\
       validposition Bc c = true /\ at_ Bc c <> 0 /\
       n = neighbour p c (central_position Bc) /\
       v = add T (at_ array p) (at_ Bc c)) /\
  (forall ws1 v ws2,
     writes T res array Bc = ws1 ++ (n, v) :: ws2 ->
     (forall v', (n, v') ∉ ws2) ->
     at_ (dilate T res array Bc) n = v) /\
  ((forall p c,
      validposition array p = true -> at_ array p <> 0 ->
      validposition Bc c = true -> at_ Bc c <> 0 ->
      n <> neighbour p c (central_position Bc)) ->
   at_ (dilate T res array Bc) n = at_ res n).
Proof.
  intros Hres Harr HBc Hd Hn. split; [apply dilate_writes|]. split; [|split].
  - intros v. rewrite elem_of_writes.
    rewrite (take_positions array res), (take_positions Bc Bc) by done.
    setoid_rewrite elem_of_positions.
    split.
    + intros (p & c & ? & ? & ? & ? & ? & ? & ?). exists p, c. done.
    + intros (p & c & ? & ? & ? & ? & ? & ?). exists p, c. done.
  - intros ws1 v ws2 Hws Hlast. rewrite dilate_writes, Hws.
    apply put_list_last; [done| |done].
    intros w Hw. rewrite <- Hws in Hw. by apply writes_valid in Hw.
  - intros Hno. rewrite dilate_writes. apply put_list_untouched; [|done|].
    + intros w. apply writes_valid.
    + intros v (p & c & Hp & Hsrc & Hc & Hact & -> & _)%elem_of_writes.
      apply elem_of_take_positions in Hp, Hc. by apply (Hno p c).
Qed.



(** A cell of weight zero is not active: a structuring element whose
    active weights were all zero has no active cell, [dilate] makes no
    store and leaves [res] as it was. *)
Lemma dilate_no_active_cell T res array Bc :
  (forall c, validposition Bc c = true -> at_ Bc c <> 0 -> at_ Bc c = 0) ->
  writes T res array Bc = [] /\ dilate T res array Bc = res /\
  forall n, ~ touched array Bc n.
Proof.
  intros Hzero.
  assert (writes T res array Bc = []) as Hw.
  { destruct (writes T res array Bc) as [|[n v] ws] eqn:E; [done|].
    assert ((n, v) ∈ writes T res array Bc) as Hin by (rewrite E; by left).
    apply elem_of_writes in Hin as (p & c & _ & _ & Hc & Hact & _).
    apply elem_of_take_positions in Hc. by destruct (Hact (Hzero c Hc Hact)). }
  rewrite dilate_writes, Hw. split; [done|]. split; [done|].
  intros n (p & c & _ & _ & Hc & Hact & _). by destruct (Hact (Hzero c Hc Hact)).
Qed.


(** ** Examples *)

(** With the flat element [1 1 1] the stores add 1, and the last store
    wins: the image [5 1] dilates to [2 2], below the image at index 0. *)
Example dilate_5_1 :
  py_dilate Int32 (row [5; 1]) (row [1; 1; 1]) = row [2; 2] /\
  writes Int32 (array_like (row [5; 1]) 0) (row [5; 1]) (row [1; 1; 1])
  = [([0], 6); ([1], 6); ([0], 2); ([1], 2)].
Proof. split; reflexivity. Qed.

Lemma dilate_last_writer_witness :
  at_ (dilate Int32 (array_like (row [5; 1]) 0) (row [5; 1]) (row [1; 1; 1]))
    [0] = 2.
Proof.
  pose proof (dilate_last_writer Int32 (array_like (row [5; 1]) 0)
                (row [5; 1]) (row [1; 1; 1]) [0]) as H.
  destruct H as (_ & _ & Hlast & _).
  - wf_by_compute.
  - wf_by_compute.
  - wf_by_compute.
  - reflexivity.
  - reflexivity.
  - apply (Hlast [([0], 6); ([1], 6)] 2 [([1], 2)]); [reflexivity|].
    intros v' Hin. apply list_elem_of_singleton in Hin. discriminate.
Defined.



(** ** Further properties of [dilate] *)

(** X7. An image without a nonzero element leaves the result as it was:
    [dilate] stores nothing. *)
Theorem dilate_zero_image T res array Bc :
  (forall p, validposition array p = true -> at_ array p = 0) ->
  dilate T res array Bc = res.
Proof.
  intros Hzero. rewrite dilate_writes.
  destruct (writes T res array Bc) as [|[n v] ws] eqn:E; [done|].
  assert ((n, v) ∈ writes T res array Bc) as Hin by (rewrite E; by left).
  apply elem_of_writes in Hin as (p & c & Hp & Hsrc & _).
  apply elem_of_take_positions in Hp. by destruct (Hsrc (Hzero p Hp)).
Qed.

Lemma dilate_zero_image_witness :
  dilate Int16 (row [4; 5]) (row [0; 0]) (row [1; 1; 1]) = row [4; 5].
Proof.
  apply (dilate_zero_image Int16 (row [4; 5]) (row [0; 0]) (row [1; 1; 1])).
  intros p Hp%elem_of_positions.
  change (positions (row [0; 0])) with [[0]; [1]] in Hp.
  repeat (apply elem_of_cons in Hp as [->|Hp]; [reflexivity|]).
  by apply elem_of_nil in Hp.
Defined.

Lemma put_list_same ws r n v :
  wf r -> (forall w, w ∈ ws -> validposition r w.1 = true) ->
  (n, v) ∈ ws -> (forall v', (n, v') ∈ ws -> v' = v) ->
  at_ (fold_left put ws r) n = v.
Proof.
  intros Hr Hval Hin Hsame.
  destruct (list_elem_of_split_r _ _ Hin) as (ws1 & ws2 & -> & Hnot).
  apply put_list_last; [done|done|].
  intros v' Hv'.
  assert (v' = v) as ->.
  { apply Hsame. apply elem_of_app. right. by right. }
  done.
Qed.

(** X8. With a structuring element that has a single active cell [c0],
    [dilate] is a translation: the neighbour of a nonzero source [p]
    through [c0] receives [array.at(p)] plus the weight of [c0]. *)
Theorem dilate_translate T res array Bc c0 p :
  wf res -> wf array -> wf Bc -> dims res = dims array ->
  length (dims Bc) = length (dims array) ->
  validposition Bc c0 = true -> at_ Bc c0 <> 0 ->
  (forall c, validposition Bc c = true -> at_ Bc c <> 0 -> c = c0) ->
  validposition array p = true -> at_ array p <> 0 ->
  validposition res (neighbour p c0 (central_position Bc)) = true ->
  at_ (dilate T res array Bc) (neighbour p c0 (central_position Bc))
  = add T (at_ array p) (at_ Bc c0).
Proof.
  intros Hres Harr HBc Hd Hnd Hc0 Hact Honly Hp Hsrc Hn.
  rewrite dilate_writes. apply put_list_same; [done| | |].
  - intros w. apply writes_valid.
  - apply elem_of_writes. exists p, c0.
    rewrite (take_positions array res), (take_positions Bc Bc) by done.
    rewrite !elem_of_positions. done.
  - intros v' (p' & c' & Hp' & Hsrc' & Hc' & Hact' & Heq & _ & ->)%elem_of_writes.
    apply elem_of_take_positions in Hp', Hc'.
    assert (c' = c0) as -> by by apply Honly.
    assert (p = p') as <-; [|done].
    pose proof (in_bounds_length _ _ Hp). pose proof (in_bounds_length _ _ Hp').
    pose proof (in_bounds_length _ _ Hc0).
    apply (Geometry.neighbour_inj_src p p' c0 (central_position Bc));
      try lia; [|done].
    unfold central_position. rewrite length_map. lia.
Qed.

Lemma dilate_translate_witness :
  at_ (dilate Int32 (array_like (row [0; 7; 0; 3]) 0) (row [0; 7; 0; 3])
         (row [0; 0; 2]))
    (neighbour [1] [2] (central_position (row [0; 0; 2])))
  = add Int32 7 2.
Proof.
  apply (dilate_translate Int32 (array_like (row [0; 7; 0; 3]) 0)
           (row [0; 7; 0; 3]) (row [0; 0; 2]) [2] [1]);
    try wf_by_compute; try reflexivity; try discriminate.
  intros c Hc%elem_of_positions Hact.
  change (positions (row [0; 0; 2])) with [[0]; [1]; [2]] in Hc.
  repeat (apply elem_of_cons in Hc as [->|Hc];
          [first [reflexivity | by destruct Hact]|]).
  by apply elem_of_nil in Hc.
Defined.

End Dilate.

(* ===================================================================== *)
(** * The priority queue *)
(* ===================================================================== *)

Module Queue.
Import Elem numpy Morph Spec.
Import MarkerInfo.

Lemma lt_spec a b :
  lt a b = true <-> cost b < cost a \/ (cost b = cost a /\ idx b < idx a).
Proof.
  unfold lt. destruct (Z.eqb_spec (cost a) (cost b)) as [E|E].
  - rewrite Z.gtb_ltb, Z.ltb_lt. lia.
  - rewrite Z.gtb_ltb, Z.ltb_lt. lia.
Qed.

Lemma before_refl a : before a a.
Proof. unfold before. lia. Qed.

Lemma before_trans a b c : before a b -> before b c -> before a c.
Proof. unfold before. lia. Qed.

Lemma greatest_elem best q : greatest best q ∈ best :: q.
Proof.
  revert best; induction q as [|x q IH]; intros best; simpl; [by left|].
  specialize (IH (if lt best x then x else best)).
  apply elem_of_cons in IH as [->|IH].
  - destruct (lt best x); [right; by left | by left].
  - right. by right.
Qed.

Lemma greatest_before best q e :
  e ∈ best :: q -> before (greatest best q) e.
Proof.
  revert best e; induction q as [|x q IH]; intros best e He; simpl.
  - apply list_elem_of_singleton in He as ->. apply before_refl.
  - assert (before (if lt best x then x else best) best /\
            before (if lt best x then x else best) x) as [Hb Hx].
    { destruct (lt best x) eqn:E.
      - apply lt_spec in E. unfold before. lia.
      - assert (~ (cost x < cost best \/
                   cost x = cost best /\ idx x < idx best)) as E'.
        { rewrite <- lt_spec. congruence. }
        unfold before. lia. }
    apply elem_of_cons in He as [->|[->|He]%elem_of_cons].
    + eapply before_trans; [|exact Hb]. apply IH. by left.
    + eapply before_trans; [|exact Hx]. apply IH. by left.
    + apply IH. by right.
Qed.

Lemma top_None q : top q = None <-> q = [].
Proof. by destruct q. Qed.

Lemma top_spec q e :
  top q = Some e -> e ∈ q /\ forall e', e' ∈ q -> before e e'.
Proof.
  destruct q as [|x q]; [done|]. simpl. intros [= <-]. split.
  - apply greatest_elem.
  - intros e'. apply greatest_before.
Qed.

Lemma remove_one_split e q :
  e ∈ q ->
  exists q1 q2, q = q1 ++ e :: q2 /\ remove_one e q = q1 ++ q2 /\ e ∉ q1.
Proof.
  induction q as [|x q IH]; intros He; [by apply elem_of_nil in He|].
  simpl. destruct (decide (x = e)) as [->|Hne].
  - exists [], q. split; [done|]. split; [done|]. apply not_elem_of_nil.
  - apply elem_of_cons in He as [->|He]; [done|].
    destruct (IH He) as (q1 & q2 & -> & Hr & Hn).
    exists (x :: q1), q2. split; [done|]. split; [by rewrite Hr|].
    intros [->|?]%elem_of_cons; done.
Qed.

Lemma pop_split q e :
  top q = Some e ->
  exists q1 q2, q = q1 ++ e :: q2 /\ pop q = q1 ++ q2 /\ e ∉ q1.
Proof.
  intros Ht. unfold pop. rewrite Ht. apply remove_one_split.
  by apply top_spec.
Qed.

Lemma elem_of_remove_one e q x : x ∈ remove_one e q -> x ∈ q.
Proof.
  induction q as [|y q IH]; simpl; [done|].
  destruct (decide (y = e)); [by right|].
  intros [->|H]%elem_of_cons; [by left | right; auto].
Qed.

Lemma elem_of_pop q x : x ∈ pop q -> x ∈ q.
Proof.
  unfold pop. destruct (top q); [apply elem_of_remove_one | done].
Qed.

(** X9. [operator<] of [MarkerInfo] is a strict order on the pairs of
    priority and insertion index, as [std::priority_queue] asks of its
    comparison: irreflexive, asymmetric, transitive, and two entries that
    it does not order have the same priority and the same index. *)
Theorem lt_strict_order :
  (forall a, lt a a = false) /\
  (forall a b, lt a b = true -> lt b a = false) /\
  (forall a b c, lt a b = true -> lt b c = true -> lt a c = true) /\
  (forall a b, lt a b = false -> lt b a = false ->
     cost a = cost b /\ idx a = idx b).
Proof.
  assert (forall a b, lt a b = false <->
            ~ (cost b < cost a \/ (cost b = cost a /\ idx b < idx a))) as Hf.
  { intros a b. rewrite <- lt_spec. by destruct (lt a b). }
  split; [|split; [|split]].
  - intros a. apply Hf. lia.
  - intros a b Hab. apply lt_spec in Hab. apply Hf. lia.
  - intros a b c Hab Hbc. apply lt_spec in Hab, Hbc. apply lt_spec. lia.
  - intros a b Hab Hba. apply Hf in Hab, Hba. lia.
Qed.

Lemma lt_strict_order_witness :
  lt (mk 3 1 [0]) (mk 3 0 [5]) = true /\ lt (mk 3 0 [5]) (mk 3 1 [0]) = false.
Proof.
  split; [reflexivity|].
  apply (proj1 (proj2 lt_strict_order) (mk 3 1 [0]) (mk 3 0 [5])). reflexivity.
Defined.

End Queue.

(* ===================================================================== *)
(** * Watershed *)
(* ===================================================================== *)

Module Watershed.
Import Elem numpy Morph Spec ArrayFacts Queue.

Lemma neighbour_inj p c c' ce :
  length c = length p -> length c' = length p -> length ce = length p ->
  neighbour p c ce = neighbour p c' ce -> c = c'.
Proof.
  unfold neighbour, psub, padd.
  revert c c' ce; induction p as [|x p IH]; intros [|y c] [|y' c'] [|z ce];
    simpl; try discriminate; [done|].
  intros [= Hc] [= Hc'] [= Hce] [= Hxy Hrest].
  f_equal; [lia|]. by apply (IH c c' ce).
Qed.

Section run.
Variables (array Bc : ndarray Z).

Local Abbreviation nb p c := (neighbour p c (central_position Bc)).
Local Abbreviation cell p := (flood_cell array Bc (central_position Bc) p).

Lemma flood_cell_eq p st c :
  cell p st c
  = if truthy (at_ Bc c) && improves array st (nb p c)
    then relabel array st p (nb p c) else st.
Proof.
  unfold flood_cell, improves.
  destruct (truthy (at_ Bc c)); [|done]. simpl.
  destruct (validposition (status st) _ && negb _); [|done]. simpl.
  by destruct (_ <? _).
Qed.

Lemma valid_status st n :
  shape_ok array st -> validposition (status st) n = validposition array n.
Proof. intros [?]. unfold validposition. congruence. Qed.

Lemma valid_cost st n :
  shape_ok array st -> validposition (cost st) n = validposition array n.
Proof. intros [?]. unfold validposition. congruence. Qed.

Lemma valid_res st n :
  shape_ok array st -> validposition (res st) n = validposition array n.
Proof. intros [?]. unfold validposition. congruence. Qed.

Lemma improves_true st n :
  shape_ok array st ->
  improves array st n = true <->
  validposition array n = true /\ at_ (status st) n = false /\
  at_ array n < at_ (cost st) n.
Proof.
  intros Hok. unfold improves.
  rewrite !andb_true_iff, negb_true_iff, Z.ltb_lt, valid_status by done.
  tauto.
Qed.

Lemma shape_relabel st p n : shape_ok array st -> shape_ok array (relabel array st p n).
Proof.
  intros [?]. split; simpl; auto using wf_at_put.
Qed.

Lemma shape_settle st p : shape_ok array st -> shape_ok array (settle st p).
Proof.
  intros [?]. split; simpl; auto using wf_at_put.
Qed.

Lemma shape_cell p st c : shape_ok array st -> shape_ok array (cell p st c).
Proof.
  intros Hok. rewrite flood_cell_eq.
  destruct (_ && _); [by apply shape_relabel | done].
Qed.

Lemma improves_relabel st p n n' :
  shape_ok array st -> validposition array n = true -> n' <> n ->
  improves array (relabel array st p n) n' = improves array st n'.
Proof.
  intros Hok Hn Hne. unfold improves. simpl.
  destruct (validposition (status st) n') eqn:Hv; [|done].
  rewrite valid_status in Hv by done.
  rewrite at_put_ne; [done| | |done]; by rewrite valid_cost.
Qed.

Lemma pushes_ext p st st' i cells :
  (forall c, c ∈ cells ->
     improves array st (nb p c) = improves array st' (nb p c)) ->
  pushes array Bc p st i cells = pushes array Bc p st' i cells.
Proof.
  revert i; induction cells as [|c cells IH]; intros i H; [done|].
  simpl. rewrite (H c) by by left.
  destruct (_ && _); [f_equal|]; apply IH; intros c' Hc'; apply H; by right.
Qed.

Lemma length_pushes p st i j cells :
  length (pushes array Bc p st i cells)
  = length (pushes array Bc p st j cells).
Proof.
  revert i j; induction cells as [|c cells IH]; intros i j; [done|].
  simpl. destruct (_ && _); simpl; [f_equal|]; apply IH.
Qed.

(** The scan of the structuring element around a popped position [p],
    as one simultaneous update: the tests can all be made in the state in
    which the scan starts. *)
Lemma flood_cells_spec p cells :
  validposition array p = true ->
  NoDup cells ->
  (forall c, c ∈ cells -> length c = length p) ->
  length (central_position Bc) = length p ->
  forall st, shape_ok array st -> at_ (status st) p = true ->
  scanned array Bc p cells st (fold_left (cell p) cells st).
Proof.
  intros Hp Hnd Hlen Hce. unfold scanned.
  induction cells as [|c cells IH]; intros st Hok Hsp; cbn [fold_left].
  - simpl. rewrite app_nil_r, Z.add_0_r.
    do 4 (split; [done|]). split; [|done].
    intros c Hc. by apply elem_of_nil in Hc.
  - apply NoDup_cons in Hnd as [Hc Hnd].
    assert (forall c', c' ∈ cells -> nb p c' <> nb p c) as Hdist.
    { intros c' Hc' Heq. apply Hc.
      replace c with c'; [done|].
      apply (neighbour_inj p c' c (central_position Bc)); auto.
      - apply Hlen. by right.
      - apply Hlen. by left. }
    specialize (IH Hnd (fun c' H => Hlen c' (list_elem_of_further _ _ _ H))).
    rewrite flood_cell_eq. cbn [pushes].
    destruct (truthy (at_ Bc c) && improves array st (nb p c)) eqn:Hq.
    + (* the neighbour through [c] is relabelled *)
      apply andb_true_iff in Hq as [Hact Himp].
      pose proof Himp as (Hn & Hsn & Hlt)%improves_true; [|done].
      assert (nb p c <> p) as Hnp by (intros E; rewrite E in Hsn; congruence).
      assert (forall c', c' ∈ cells ->
                improves array (relabel array st p (nb p c)) (nb p c')
                = improves array st (nb p c')) as Hsame.
      { intros c' Hc'. apply improves_relabel; auto. }
      destruct (IH (relabel array st p (nb p c)))
        as (Hok' & Hst & Hq' & Hi & Hhit & Hmiss);
        [by apply shape_relabel | done |].
      rewrite (pushes_ext p _ st) in Hq', Hi by done.
      cbn [relabel status hqueue idx res cost] in Hst, Hq', Hi, Hhit, Hmiss.
      split; [done|]. split; [done|]. split.
      { rewrite Hq'. unfold push. by rewrite <- app_assoc. }
      split.
      { rewrite Hi. cbn [length]. lia. }
      split.
      * intros c0 [->|Hc0]%elem_of_cons Hact0 Himp0.
        -- destruct (Hmiss (nb p c) Hn) as [-> ->].
           { intros c' Hc' _ _ E. by apply (Hdist c'). }
           split; apply at_put_eq; try apply Hok;
             by rewrite ?valid_cost, ?valid_res.
        -- destruct (Hhit c0 Hc0 Hact0) as [-> ->];
             [by rewrite Hsame|].
           split; [done|]. apply at_put_ne; [| |done];
             by rewrite valid_res.
      * intros n0 Hn0 Hun.
        assert (n0 <> nb p c) as Hne by (apply (Hun c); [by left|done..]).
        destruct (Hmiss n0 Hn0) as [-> ->].
        { intros c' Hc' Hact' Himp'. apply (Hun c'); [by right|done|].
          by rewrite <- Hsame. }
        split; apply at_put_ne; try done;
          by rewrite ?valid_cost, ?valid_res.
    + (* nothing happens at [c] *)
      destruct (IH st Hok Hsp) as (Hok' & Hst & Hq' & Hi & Hhit & Hmiss).
      split; [done|]. split; [done|]. split; [done|]. split; [done|]. split.
      * intros c0 [->|Hc0]%elem_of_cons Hact0 Himp0.
        -- rewrite Hact0, Himp0 in Hq. discriminate.
        -- by apply Hhit.
      * intros n0 Hn0 Hun. apply Hmiss; [done|].
        intros c' Hc'. apply Hun. by right.
Qed.

Lemma elem_of_pushes p st i cells e :
  e ∈ pushes array Bc p st i cells ->
  exists c, c ∈ cells /\ truthy (at_ Bc c) = true /\
    improves array st (nb p c) = true /\
    e = MarkerInfo.new (at_ array (nb p c)) (MarkerInfo.idx e) (nb p c) /\
    i <= MarkerInfo.idx e
      < i + Z.of_nat (length (pushes array Bc p st i cells)).
Proof.
  revert i; induction cells as [|c cells IH]; intros i He;
    [by apply elem_of_nil in He|].
  cbn [pushes] in *.
  destruct (truthy (at_ Bc c) && improves array st (nb p c)) eqn:Hq.
  - apply andb_true_iff in Hq as [Hact Himp].
    apply elem_of_cons in He as [->|He].
    + exists c. split; [by left|]. do 3 (split; [done|]).
      cbn [length MarkerInfo.idx MarkerInfo.new]. lia.
    + destruct (IH _ He) as (c' & Hc' & ? & ? & ? & ?).
      exists c'. split; [by right|]. do 3 (split; [done|]).
      cbn [length]. lia.
  - destruct (IH _ He) as (c' & Hc' & ? & ? & ? & ?).
    exists c'. split; [by right|]. done.
Qed.

Lemma pushes_hit p st i cells c :
  c ∈ cells -> truthy (at_ Bc c) = true ->
  improves array st (nb p c) = true ->
  exists k, i <= k < i + Z.of_nat (length (pushes array Bc p st i cells)) /\
    MarkerInfo.new (at_ array (nb p c)) k (nb p c)
      ∈ pushes array Bc p st i cells.
Proof.
  revert i; induction cells as [|c0 cells IH]; intros i Hc Hact Himp;
    [by apply elem_of_nil in Hc|].
  cbn [pushes].
  apply elem_of_cons in Hc as [->|Hc].
  - rewrite Hact, Himp. simpl. exists i. split; [lia | by left].
  - destruct (IH (i + 1) Hc Hact Himp) as (k & Hk & Hin).
    destruct (IH i Hc Hact Himp) as (k' & Hk' & Hin').
    destruct (truthy (at_ Bc c0) && improves array st (nb p c0)).
    + exists k. split; [cbn [length]; lia | by right].
    + exists k'. done.
Qed.

Lemma pushes_sorted p st i cells :
  StronglySorted (fun a b => MarkerInfo.idx a < MarkerInfo.idx b)
    (pushes array Bc p st i cells).
Proof.
  revert i; induction cells as [|c cells IH]; intros i; [constructor|].
  cbn [pushes]. destruct (_ && _); [|apply IH].
  constructor; [apply IH|]. apply Forall_forall. intros e He.
  apply elem_of_pushes in He as (_ & _ & _ & _ & _ & He). simpl. lia.
Qed.

Section step.
Hypothesis HBc : wf Bc.
Hypothesis Hndim : length (dims Bc) = length (dims array).

Lemma flood_step_scanned st e :
  inv array st -> top (hqueue st) = Some e ->
  exists st', flood_step array Bc st = Some st' /\
    scanned array Bc (MarkerInfo.pos e) (positions Bc)
      (settle st (MarkerInfo.pos e)) st'.
Proof.
  intros [Hok Hval Hidx Hsort] Ht. unfold flood_step. rewrite Ht.
  eexists. split; [done|]. rewrite (take_positions Bc Bc) by done.
  assert (validposition array (MarkerInfo.pos e) = true) as Hp.
  { apply Hval. by apply top_spec. }
  pose proof (in_bounds_length _ _ Hp) as Hlp.
  apply flood_cells_spec; auto using NoDup_positions, shape_settle.
  - intros c Hc%elem_of_positions. apply in_bounds_length in Hc. lia.
  - unfold central_position. rewrite length_map. lia.
  - simpl. apply at_put_eq; [apply Hok|]. by rewrite valid_status.
Qed.

Lemma inv_step st st' :
  inv array st -> flood_step array Bc st = Some st' -> inv array st'.
Proof.
  intros Hinv Hstep.
  destruct (top (hqueue st)) as [e|] eqn:Ht;
    [|unfold flood_step in Hstep; by rewrite Ht in Hstep].
  destruct (flood_step_scanned st e Hinv Ht)
    as (st2 & Hstep2 & Hok & Hst & Hq & Hi & _ & _).
  rewrite Hstep in Hstep2. injection Hstep2 as <-.
  destruct Hinv as [Hok0 Hval Hidx Hsort].
  destruct (pop_split _ _ Ht) as (q1 & q2 & Hq0 & Hpop & _).
  cbn [settle hqueue idx] in Hq, Hi.
  assert (forall e', e' ∈ pop (hqueue st) -> e' ∈ hqueue st) as Hsub.
  { intros e'. rewrite Hpop, Hq0, !elem_of_app, elem_of_cons. tauto. }
  split; [done| | |].
  - intros e'. rewrite Hq. intros [He'|He']%elem_of_app; [auto|].
    apply elem_of_pushes in He' as (c & _ & _ & Himp & -> & _).
    apply improves_true in Himp as [? _]; [done | by apply shape_settle].
  - intros e'. rewrite Hq, Hi. intros [He'|He']%elem_of_app.
    + apply Hsub, Hidx in He'. lia.
    + apply elem_of_pushes in He' as (_ & _ & _ & _ & _ & ?). lia.
  - rewrite Hq. apply StronglySorted_app_2.
    + intros x1 x2 Hx1 Hx2. apply Hsub, Hidx in Hx1.
      apply elem_of_pushes in Hx2 as (_ & _ & _ & _ & _ & ?). lia.
    + rewrite Hpop. rewrite Hq0 in Hsort.
      apply StronglySorted_app in Hsort as (Hcross & H1 & H2).
      apply StronglySorted_cons in H2 as [_ H2].
      apply StronglySorted_app_2; [|done..].
      intros x1 x2 Hx1 Hx2. apply Hcross; [done | by right].
    + apply pushes_sorted.
Qed.

End step.

End run.

(** ** The loop over the markers *)

Section seeds.
Variables (array markers : ndarray Z).

Lemma elem_of_marker_entries i l e :
  e ∈ marker_entries markers i l ->
  exists p, p ∈ l /\ at_ markers p <> 0 /\
    e = MarkerInfo.new (at_ markers p) (MarkerInfo.idx e) p /\
    i <= MarkerInfo.idx e < i + Z.of_nat (length (marker_entries markers i l)).
Proof.
  revert i; induction l as [|p l IH]; intros i He;
    [by apply elem_of_nil in He|].
  cbn [marker_entries] in *.
  destruct (truthy (at_ markers p)) eqn:Hm.
  - apply truthy_true in Hm. apply elem_of_cons in He as [->|He].
    + exists p. split; [by left|]. do 2 (split; [done|]).
      cbn [length MarkerInfo.idx MarkerInfo.new]. lia.
    + destruct (IH _ He) as (p' & Hp' & ? & ? & ?).
      exists p'. split; [by right|]. do 2 (split; [done|]).
      cbn [length]. lia.
  - destruct (IH _ He) as (p' & Hp' & ? & ? & ?).
    exists p'. split; [by right|]. done.
Qed.

Lemma marker_entries_hit i l p :
  p ∈ l -> at_ markers p <> 0 ->
  exists k, i <= k < i + Z.of_nat (length (marker_entries markers i l)) /\
    MarkerInfo.new (at_ markers p) k p ∈ marker_entries markers i l.
Proof.
  revert i; induction l as [|p0 l IH]; intros i Hp Hm;
    [by apply elem_of_nil in Hp|].
  cbn [marker_entries].
  apply elem_of_cons in Hp as [->|Hp].
  - apply truthy_true in Hm. rewrite Hm. exists i.
    split; [cbn [length]; lia | by left].
  - destruct (IH (i + 1) Hp Hm) as (k & Hk & Hin).
    destruct (IH i Hp Hm) as (k' & Hk' & Hin').
    destruct (truthy (at_ markers p0)).
    + exists k. split; [cbn [length]; lia | by right].
    + exists k'. done.
Qed.

Lemma marker_entries_sorted i l :
  StronglySorted (fun a b => MarkerInfo.idx a < MarkerInfo.idx b)
    (marker_entries markers i l).
Proof.
  revert i; induction l as [|p l IH]; intros i; [constructor|].
  cbn [marker_entries]. destruct (truthy _); [|apply IH].
  constructor; [apply IH|]. apply Forall_forall. intros e He.
  apply elem_of_marker_entries in He as (_ & _ & _ & _ & He). simpl. lia.
Qed.

Lemma shape_seed st p : shape_ok array st -> shape_ok array (seed array markers st p).
Proof.
  intros [?]. unfold seed. destruct (truthy _); [|done].
  split; simpl; auto using wf_at_put.
Qed.

(** The loop over the markers, as one simultaneous update. *)
Lemma seed_loop l :
  NoDup l -> (forall p, p ∈ l -> validposition array p = true) ->
  forall st, shape_ok array st ->
  let st' := fold_left (seed array markers) l st in
  shape_ok array st' /\
  status st' = status st /\
  hqueue st' = hqueue st ++ marker_entries markers (idx st) l /\
  idx st' = idx st + Z.of_nat (length (marker_entries markers (idx st) l)) /\
  (forall p, p ∈ l -> at_ markers p <> 0 ->
     at_ (cost st') p = at_ array p /\ at_ (res st') p = at_ markers p) /\
  (forall n, validposition array n = true -> n ∉ l \/ at_ markers n = 0 ->
     at_ (cost st') n = at_ (cost st) n /\ at_ (res st') n = at_ (res st) n).
Proof.
  intros Hnd Hval.
  induction l as [|c l IH]; intros st Hok; cbn [fold_left].
  - simpl. rewrite app_nil_r, Z.add_0_r.
    do 4 (split; [done|]). split; [|done].
    intros p Hp. by apply elem_of_nil in Hp.
  - apply NoDup_cons in Hnd as [Hc Hnd].
    assert (validposition array c = true) as Hvc by (apply Hval; by left).
    specialize (IH Hnd (fun p H => Hval p (list_elem_of_further _ _ _ H))).
    destruct (IH (seed array markers st c) (shape_seed st c Hok))
      as (Hok' & Hst & Hq & Hi & Hhit & Hmiss).
    remember (seed array markers st c) as st2 eqn:Hs.
    unfold seed in Hs. cbn [marker_entries].
    destruct (truthy (at_ markers c)) eqn:Hm; subst st2.
    + cbn [status hqueue idx res cost] in Hst, Hq, Hi, Hhit, Hmiss.
      split; [done|]. split; [done|]. split.
      { rewrite Hq. unfold push. by rewrite <- app_assoc. }
      split.
      { rewrite Hi. cbn [length]. lia. }
      split.
      * intros p [->|Hp]%elem_of_cons Hmp.
        -- destruct (Hmiss c Hvc) as [-> ->]; [by left|].
           split; apply at_put_eq; try apply Hok;
             by rewrite ?(valid_cost array), ?(valid_res array).
        -- by apply Hhit.
      * intros n Hn Hun.
        assert (n <> c) as Hne.
        { intros ->. destruct Hun as [Hun|Hun].
          - apply Hun. by left.
          - apply truthy_true in Hm. done. }
        destruct (Hmiss n Hn) as [-> ->].
        { destruct Hun as [Hun|Hun]; [left|by right].
          intros Hin. apply Hun. by right. }
        split; apply at_put_ne; try done;
          by rewrite ?(valid_cost array), ?(valid_res array).
    + apply truthy_false in Hm.
      split; [done|]. split; [done|]. split; [done|]. split; [done|]. split.
      * intros p [->|Hp]%elem_of_cons Hmp; [done | by apply Hhit].
      * intros n Hn Hun. apply Hmiss; [done|].
        destruct Hun as [Hun|Hun]; [left|by right].
        intros Hin. apply Hun. by right.
Qed.

End seeds.

(** ** Termination *)

Lemma length_filter_ext {A} (P Q : A -> Prop)
    `{!forall x, Decision (P x)} `{!forall x, Decision (Q x)} (l : list A) :
  (forall x, x ∈ l -> P x <-> Q x) ->
  length (filter P l) = length (filter Q l).
Proof.
  induction l as [|x l IH]; intros Hext; [done|].
  rewrite !filter_cons.
  assert (P x <-> Q x) as Hx by (apply Hext; by left).
  assert (length (filter P l) = length (filter Q l)) as Hl.
  { apply IH. intros y Hy. apply Hext. by right. }
  destruct (decide (P x)), (decide (Q x)); simpl; try tauto; by rewrite Hl.
Qed.

Lemma length_filter_drop {A} `{!EqDecision A} (P Q : A -> Prop)
    `{!forall x, Decision (P x)} `{!forall x, Decision (Q x)}
    (l : list A) (n : A) :
  NoDup l -> n ∈ l -> P n -> ~ Q n ->
  (forall x, x ∈ l -> x <> n -> P x <-> Q x) ->
  length (filter P l) = S (length (filter Q l)).
Proof.
  induction l as [|x l IH]; intros Hnd Hn HP HQ Hext;
    [by apply elem_of_nil in Hn|].
  apply NoDup_cons in Hnd as [Hx Hnd]. rewrite !filter_cons.
  destruct (decide (x = n)) as [->|Hne].
  - rewrite decide_True, decide_False by done. simpl. f_equal.
    apply length_filter_ext. intros y Hy. apply Hext; [by right|].
    intros ->. done.
  - apply elem_of_cons in Hn as [->|Hn]; [done|].
    assert (P x <-> Q x) as Hx' by (apply Hext; [by left | done]).
    assert (length (filter P l) = S (length (filter Q l))) as Hl.
    { apply IH; auto. intros y Hy. apply Hext. by right. }
    destruct (decide (P x)), (decide (Q x)); simpl; try tauto; by rewrite Hl.
Qed.

Section measure.
Variables (array Bc : ndarray Z).

Lemma pending_relabel st p n :
  shape_ok array st -> validposition array n = true ->
  at_ array n < at_ (cost st) n ->
  pending array st = S (pending array (relabel array st p n)).
Proof.
  intros Hok Hn Hlt. unfold pending. simpl.
  apply (length_filter_drop _ _ _ n); auto using NoDup_positions.
  - by apply elem_of_positions.
  - rewrite at_put_eq; [lia | apply Hok | by rewrite (valid_cost array)].
  - intros x Hx%elem_of_positions Hne.
    rewrite at_put_ne; [done | | | done]; by rewrite (valid_cost array).
Qed.

Lemma measure_cell p st c :
  shape_ok array st ->
  measure array (flood_cell array Bc (central_position Bc) p st c)
  = measure array st.
Proof.
  intros Hok. rewrite flood_cell_eq.
  destruct (truthy (at_ Bc c) && improves array st _) eqn:Hq; [|done].
  apply andb_true_iff in Hq as [_ (Hn & _ & Hlt)%improves_true]; [|done].
  unfold measure. rewrite (pending_relabel st p _ Hok Hn Hlt).
  simpl. unfold push. rewrite length_app. simpl. lia.
Qed.

Lemma measure_cells p cells st :
  shape_ok array st ->
  shape_ok array (fold_left (flood_cell array Bc (central_position Bc) p) cells st)
  /\ measure array
       (fold_left (flood_cell array Bc (central_position Bc) p) cells st)
     = measure array st.
Proof.
  revert st; induction cells as [|c cells IH]; intros st Hok; [done|].
  cbn [fold_left].
  destruct (IH _ (shape_cell array Bc p st c Hok)) as [Hok' ->].
  split; [done|]. by apply measure_cell.
Qed.

Lemma shape_step st st' :
  shape_ok array st -> flood_step array Bc st = Some st' ->
  shape_ok array st'.
Proof.
  intros Hok. unfold flood_step.
  destruct (top (hqueue st)) as [e|]; [|done]. intros [= <-].
  apply measure_cells. by apply shape_settle.
Qed.

Lemma measure_step st st' :
  shape_ok array st -> flood_step array Bc st = Some st' ->
  measure array st = S (measure array st').
Proof.
  intros Hok. unfold flood_step.
  destruct (top (hqueue st)) as [e|] eqn:Ht; [|done]. intros [= <-].
  destruct (measure_cells (MarkerInfo.pos e) (take (size Bc) (positions Bc))
              (settle st (MarkerInfo.pos e)) (shape_settle array _ _ Hok))
    as [_ ->].
  destruct (pop_split _ _ Ht) as (q1 & q2 & Hq & Hpop & _).
  unfold measure, pending. simpl. rewrite Hpop, Hq, !length_app. simpl. lia.
Qed.

(** The counter and the number of pending positions add up to a
    constant. *)
Lemma counter_cells p cells st :
  shape_ok array st ->
  let st' := fold_left (flood_cell array Bc (central_position Bc) p) cells st in
  idx st' + Z.of_nat (pending array st')
  = idx st + Z.of_nat (pending array st) /\ idx st <= idx st'.
Proof.
  revert st; induction cells as [|c cells IH]; intros st Hok; [simpl; lia|].
  cbn [fold_left]. cbv zeta.
  destruct (IH _ (shape_cell array Bc p st c Hok)) as [-> Hle].
  revert Hle. rewrite flood_cell_eq.
  destruct (truthy (at_ Bc c) && improves array st _) eqn:Hq; [|done].
  apply andb_true_iff in Hq as [_ (Hn & _ & Hlt)%improves_true]; [|done].
  rewrite (pending_relabel st p _ Hok Hn Hlt). simpl. lia.
Qed.

Lemma counter_step st st' :
  shape_ok array st -> flood_step array Bc st = Some st' ->
  idx st' + Z.of_nat (pending array st')
  = idx st + Z.of_nat (pending array st) /\ idx st <= idx st'.
Proof.
  intros Hok. unfold flood_step.
  destruct (top (hqueue st)) as [e|]; [|done]. intros [= <-].
  apply (counter_cells (MarkerInfo.pos e) _ (settle st (MarkerInfo.pos e))).
  by apply shape_settle.
Qed.

Lemma flood_more_fuel fuel st s :
  flood fuel array Bc st = Some s -> flood (S fuel) array Bc st = Some s.
Proof.
  revert st; induction fuel as [|fuel IH]; intros st; cbn [flood].
  - by destruct (flood_step array Bc st).
  - destruct (flood_step array Bc st) as [st'|]; [|done].
    intros H. by apply IH in H.
Qed.

Lemma flood_fuel_le fuel fuel' st s :
  (fuel <= fuel')%nat ->
  flood fuel array Bc st = Some s -> flood fuel' array Bc st = Some s.
Proof.
  induction 1 as [|fuel' _ IH]; [done|].
  intros H. by apply flood_more_fuel, IH.
Qed.

Lemma iterate_stop k st :
  flood_step array Bc st = None -> iterate k array Bc st = st.
Proof. intros H. destruct k; simpl; [done | by rewrite H]. Qed.

(** With as much fuel as the measure, the main loop runs until the queue
    is empty. *)
Lemma flood_enough fuel st :
  shape_ok array st -> (measure array st <= fuel)%nat ->
  flood fuel array Bc st = Some (iterate fuel array Bc st) /\
  hqueue (iterate fuel array Bc st) = [].
Proof.
  revert st; induction fuel as [|fuel IH]; intros st Hok Hm.
  - assert (hqueue st = []) as Hq.
    { unfold measure in Hm. destruct (hqueue st); [done | simpl in Hm; lia]. }
    unfold flood, flood_step. rewrite Hq. done.
  - cbn [flood iterate].
    destruct (flood_step array Bc st) as [st'|] eqn:E.
    + apply IH; [by eapply shape_step|].
      pose proof (measure_step st st' Hok E). lia.
    + split; [done|]. unfold flood_step in E.
      destruct (top (hqueue st)) eqn:Ht; [done|]. by apply top_None.
Qed.

End measure.

Lemma entries_pending_le (markers : ndarray Z) (P : position -> Prop)
    `{!forall x, Decision (P x)} i l :
  (forall n, n ∈ l -> at_ markers n <> 0 -> ~ P n) ->
  (length (marker_entries markers i l) + length (filter P l) <= length l)%nat.
Proof.
  revert i; induction l as [|c l IH]; intros i Hno; [done|].
  cbn [marker_entries]. rewrite filter_cons.
  assert (forall n, n ∈ l -> at_ markers n <> 0 -> ~ P n) as Hno'.
  { intros n Hn. apply Hno. by right. }
  destruct (truthy (at_ markers c)) eqn:Hm.
  - apply truthy_true in Hm. rewrite decide_False by (apply Hno; [by left|done]).
    specialize (IH (i + 1) Hno'). simpl. lia.
  - specialize (IH i Hno'). destruct (decide (P c)); simpl; lia.
Qed.

(** ** The run *)

Lemma iterate_succ k array Bc st :
  iterate (S k) array Bc st
  = match flood_step array Bc (iterate k array Bc st) with
    | None => iterate k array Bc st
    | Some st' => st'
    end.
Proof.
  revert st; induction k as [|k IH]; intros st; [done|].
  change (iterate (S (S k)) array Bc st)
    with (match flood_step array Bc st with
          | None => st
          | Some st' => iterate (S k) array Bc st'
          end).
  cbn [iterate] in *.
  destruct (flood_step array Bc st) as [st'|] eqn:E; [apply IH|].
  by rewrite E.
Qed.

(** A value in the range of [int] is its own conversion. *)
Lemma to_int_small z : - 2 ^ 31 <= z < 2 ^ 31 -> to_int z = z.
Proof.
  intros Hz. unfold to_int, wrap. cbn [is_signed bits].
  change (32 - 1) with 31. rewrite Z.mod_small; lia.
Qed.

Section whole.
Variables (T : itype) (res0 array markers Bc : ndarray Z).
Hypothesis Hin : inputs_ok res0 array markers Bc.

Local Abbreviation nb p c := (neighbour p c (central_position Bc)).
Local Abbreviation st0 := (seeds T res0 array markers).
Local Abbreviation run k := (reached T res0 array markers Bc k).

Lemma shape_initial : shape_ok array (initial T res0 array).
Proof.
  destruct Hin as [[Hd _] _ Hres _ Hdres _ _].
  split; simpl; auto; by apply wf_filled.
Qed.

Lemma seeds_loop_spec :
  shape_ok array st0 /\
  status st0 = filled (dims array) false /\
  hqueue st0 = marker_entries markers 0 (positions markers) /\
  idx st0
  = Z.of_nat (length (marker_entries markers 0 (positions markers))) /\
  (forall p, validposition array p = true -> at_ markers p <> 0 ->
     at_ (cost st0) p = at_ array p /\ at_ (res st0) p = at_ markers p) /\
  (forall n, validposition array n = true -> at_ markers n = 0 ->
     at_ (cost st0) n = max_value T /\ at_ (res st0) n = at_ res0 n).
Proof.
  pose proof shape_initial as Hok0.
  destruct Hin as [Harr _ Hres Hm Hdres Hdm _].
  unfold seeds. rewrite (take_positions markers res0) by congruence.
  assert (forall p, p ∈ positions markers <-> validposition array p = true)
    as Hpos.
  { intros p. rewrite elem_of_positions. unfold validposition. by rewrite Hdm. }
  destruct (seed_loop array markers (positions markers)
              (NoDup_positions _) (fun p H => proj1 (Hpos p) H)
              (initial T res0 array) Hok0)
    as (Hok & Hst & Hq & Hi & Hhit & Hmiss).
  split; [done|]. split; [done|]. split; [done|]. split; [by rewrite Hi|].
  split.
  - intros p Hp. apply Hhit. by apply Hpos.
  - intros n Hn Hz. destruct (Hmiss n Hn) as [-> ->]; [by right|].
    split; [|done]. simpl. by apply at_filled.
Qed.

Lemma inv_seeds : inv array st0.
Proof.
  destruct seeds_loop_spec as (Hok & _ & Hq & Hi & _ & _).
  split; [done| | |].
  - intros e. rewrite Hq. intros (p & Hp & _ & -> & _)%elem_of_marker_entries.
    simpl. apply elem_of_positions in Hp. unfold validposition in *.
    by rewrite <- (in_markers_dims _ _ _ _ Hin).
  - intros e. rewrite Hq, Hi.
    intros (_ & _ & _ & _ & ?)%elem_of_marker_entries. lia.
  - rewrite Hq. apply marker_entries_sorted.
Qed.

Lemma inv_run k : inv array (run k).
Proof.
  induction k as [|k IH]; [apply inv_seeds|].
  unfold reached in *. rewrite iterate_succ.
  destruct (flood_step array Bc _) as [st'|] eqn:E; [|done].
  apply (inv_step array Bc (in_Bc _ _ _ _ Hin) (in_ndim _ _ _ _ Hin) _ _ IH E).
Qed.

Lemma run_step k e :
  top (hqueue (run k)) = Some e ->
  flood_step array Bc (run k) = Some (run (S k)) /\
  scanned array Bc (MarkerInfo.pos e) (positions Bc)
    (settle (run k) (MarkerInfo.pos e)) (run (S k)).
Proof.
  intros Ht.
  destruct (flood_step_scanned array Bc (in_Bc _ _ _ _ Hin)
              (in_ndim _ _ _ _ Hin) (run k) e (inv_run k) Ht)
    as (st' & Hstep & Hsc).
  unfold reached in *. rewrite iterate_succ, Hstep. done.
Qed.

Lemma run_stop k :
  top (hqueue (run k)) = None -> run (S k) = run k.
Proof.
  intros Ht. unfold reached in *. rewrite iterate_succ.
  unfold flood_step. by rewrite Ht.
Qed.

(** C3, amended.  The loop over the markers pushes, for every valid
    position [p] with a nonzero marker, an entry whose priority is the
    marker converted to [int] (not the intensity): the marker itself when
    it is in the range of [int], its reduction modulo [2 ^ 32] otherwise,
    see [seeds_priority_not_marker].  It stores the intensity in [cost] and
    the marker in [res]; a position whose marker is zero gets no entry and
    keeps the initial cost and label. *)
Theorem seeds_spec p :
  validposition array p = true ->
  hqueue st0 = marker_entries markers 0 (positions markers) /\
  at_ (status st0) p = false /\
  (at_ markers p <> 0 ->
     at_ (cost st0) p = at_ array p /\
     at_ (res st0) p = at_ markers p /\
     (exists i, 0 <= i < idx st0 /\
        MarkerInfo.mk (to_int (at_ markers p)) i p ∈ hqueue st0) /\
     (forall e, e ∈ hqueue st0 -> MarkerInfo.pos e = p ->
        e = MarkerInfo.new (at_ markers p) (MarkerInfo.idx e) p /\
        MarkerInfo.cost e = to_int (at_ markers p) /\
        (- 2 ^ 31 <= at_ markers p < 2 ^ 31 ->
         MarkerInfo.cost e = at_ markers p))) /\
  (at_ markers p = 0 ->
     at_ (cost st0) p = max_value T /\
     at_ (res st0) p = at_ res0 p /\
     (forall e, e ∈ hqueue st0 -> MarkerInfo.pos e <> p)).
Proof.
  intros Hp.
  destruct seeds_loop_spec as (Hok & Hst & Hq & Hi & Hhit & Hmiss).
  split; [done|]. split.
  { rewrite Hst. by apply at_filled. }
  split.
  - intros Hm. destruct (Hhit p Hp Hm) as [Hc Hr].
    split; [done|]. split; [done|]. split.
    + rewrite Hq, Hi.
      destruct (marker_entries_hit markers 0 (positions markers) p)
        as (i & Hi' & Hin'); [|done|exists i; split; [lia|done]].
      apply elem_of_positions. unfold validposition in *.
      by rewrite (in_markers_dims _ _ _ _ Hin).
    + intros e. rewrite Hq.
      intros (p' & _ & _ & He & _)%elem_of_marker_entries Hpos.
      rewrite He in Hpos. simpl in Hpos. subst p'.
      split; [by rewrite He|]. rewrite He. simpl.
      split; [done|]. intros Hsmall. by apply to_int_small.
  - intros Hz. destruct (Hmiss p Hp Hz) as [Hc Hr].
    split; [done|]. split; [done|].
    intros e. rewrite Hq.
    intros (p' & _ & Hm & He & _)%elem_of_marker_entries Hpos.
    rewrite He in Hpos. simpl in Hpos. by subst p'.
Qed.

(** C2. At every pop of the main loop the entry removed has the smallest
    priority of the queue and, among the entries of that priority, the
    smallest insertion index; the entries pushed before it have a strictly
    larger priority, so entries of equal priority leave in the order of
    their insertion. *)
Theorem pop_least k e :
  top (hqueue (run k)) = Some e ->
  e ∈ hqueue (run k) /\
  (forall e', e' ∈ hqueue (run k) -> MarkerInfo.cost e <= MarkerInfo.cost e') /\
  (forall e', e' ∈ hqueue (run k) -> e' <> e ->
     MarkerInfo.cost e' = MarkerInfo.cost e ->
     MarkerInfo.idx e < MarkerInfo.idx e') /\
  exists q1 q2,
    hqueue (run k) = q1 ++ e :: q2 /\
    hqueue (settle (run k) (MarkerInfo.pos e)) = q1 ++ q2 /\
    (forall e', e' ∈ q1 ->
       MarkerInfo.idx e' < MarkerInfo.idx e /\
       MarkerInfo.cost e < MarkerInfo.cost e') /\
    (forall e', e' ∈ q2 ->
       MarkerInfo.idx e < MarkerInfo.idx e' /\
       MarkerInfo.cost e <= MarkerInfo.cost e').
Proof.
  intros Ht. destruct (top_spec _ _ Ht) as [He Hmin].
  destruct (pop_split _ _ Ht) as (q1 & q2 & Hq & Hpop & Hn1).
  pose proof (inv_sorted _ _ (inv_run k)) as Hs. rewrite Hq in Hs.
  apply StronglySorted_app in Hs as (Hcross & _ & Hs2).
  apply StronglySorted_cons in Hs2 as [Hs2 _].
  rewrite Forall_forall in Hs2.
  assert (forall e', e' ∈ q1 ->
            MarkerInfo.idx e' < MarkerInfo.idx e /\
            MarkerInfo.cost e < MarkerInfo.cost e') as H1.
  { intros e' He'.
    assert (MarkerInfo.idx e' < MarkerInfo.idx e) as Hi
      by (apply Hcross; [done | by left]).
    split; [done|].
    assert (before e e') as Hb.
    { apply Hmin. rewrite Hq. apply elem_of_app. by left. }
    unfold before in Hb. lia. }
  assert (forall e', e' ∈ q2 ->
            MarkerInfo.idx e < MarkerInfo.idx e' /\
            MarkerInfo.cost e <= MarkerInfo.cost e') as H2.
  { intros e' He'. split; [by apply Hs2|].
    assert (before e e') as Hb.
    { apply Hmin. rewrite Hq. apply elem_of_app. right. by right. }
    unfold before in Hb. lia. }
  split; [done|]. split; [|split].
  - intros e' He'. specialize (Hmin e' He'). unfold before in Hmin. lia.
  - intros e' He' Hne Hc. rewrite Hq in He'.
    apply elem_of_app in He' as [He'|[->|He']%elem_of_cons]; [|done|].
    + apply H1 in He'. lia.
    + by apply H2.
  - exists q1, q2. done.
Qed.


Lemma measure_seeds : (measure array st0 <= size res0)%nat.
Proof.
  destruct seeds_loop_spec as (_ & _ & Hq & _ & Hhit & _).
  pose proof (in_markers_dims _ _ _ _ Hin) as Hdm.
  pose proof (in_res_dims _ _ _ _ Hin) as Hdr.
  destruct (in_array _ _ _ _ Hin) as [Hd _].
  unfold measure, pending. rewrite Hq.
  assert (positions markers = positions array) as ->
    by (unfold positions; by rewrite Hdm).
  assert (size res0 = length (positions array)) as ->.
  { unfold size, positions. by rewrite length_indices, Hdr. }
  apply entries_pending_le. intros n Hn%elem_of_positions Hm.
  destruct (Hhit n Hn Hm) as [-> _]. lia.
Qed.

Lemma idx_nonneg k :
  0 <= idx (run k) /\
  forall e, e ∈ hqueue (run k) -> 0 <= MarkerInfo.idx e.
Proof.
  induction k as [|k [IH0 IH]].
  - destruct seeds_loop_spec as (_ & _ & Hq & Hi & _ & _).
    unfold reached, iterate. rewrite Hq, Hi. split; [lia|].
    intros e (_ & _ & _ & _ & ?)%elem_of_marker_entries. lia.
  - destruct (top (hqueue (run k))) as [e|] eqn:Ht;
      [|by rewrite run_stop].
    destruct (run_step k e Ht) as (_ & _ & _ & Hq & Hi & _ & _).
    simpl in Hq, Hi. split; [lia|].
    intros e'. rewrite Hq. intros [He'%elem_of_pop|He']%elem_of_app; [auto|].
    apply elem_of_pushes in He' as (_ & _ & _ & _ & _ & ?). lia.
Qed.

(** The insertion indices stay below the number of elements: the [int]
    counter of the source does not overflow on an array of fewer than
    [2 ^ 31] elements. *)
Lemma idx_bounded k :
  0 <= idx (run k) <= Z.of_nat (size res0) /\
  forall e, e ∈ hqueue (run k) ->
    0 <= MarkerInfo.idx e < Z.of_nat (size res0).
Proof.
  assert (0 <= idx (run k) /\
          idx (run k) + Z.of_nat (pending array (run k))
          <= Z.of_nat (size res0)) as [H0 Hle].
  { induction k as [|k [IH0 IH]].
    - destruct seeds_loop_spec as (_ & _ & Hq & Hi & _ & _).
      pose proof measure_seeds as Hm. unfold measure in Hm.
      rewrite Hq in Hm. unfold reached, iterate. lia.
    - destruct (flood_step array Bc (run k)) as [st'|] eqn:E.
      + destruct (counter_step array Bc _ _ (inv_shape _ _ (inv_run k)) E)
          as [Heq Hmono].
        unfold reached in *. rewrite iterate_succ, E. lia.
      + unfold reached in *. rewrite iterate_succ, E. lia. }
  split; [lia|]. intros e He.
  pose proof (inv_idx _ _ (inv_run k) e He) as Hlt.
  split; [|lia]. by apply (proj2 (idx_nonneg k)).
Qed.

(** The main loop, started by [cwatershed], empties the queue. *)
Lemma flood_terminates :
  flood (size res0) array Bc st0 = Some (run (size res0)) /\
  hqueue (run (size res0)) = [] /\
  cwatershed T res0 array markers Bc = Some (res (run (size res0))).
Proof.
  destruct (flood_enough array Bc (size res0) st0) as [Hf Hq].
  - apply seeds_loop_spec.
  - apply measure_seeds.
  - unfold cwatershed, reached. by rewrite Hf.
Qed.

(** The cost and the label of a marked position never change. *)
Lemma seeds_kept k p :
  validposition array p = true -> at_ markers p <> 0 ->
  at_ (cost (run k)) p = at_ array p /\ at_ (res (run k)) p = at_ markers p.
Proof.
  intros Hp Hm. induction k as [|k [IHc IHr]].
  - by apply seeds_loop_spec.
  - destruct (top (hqueue (run k))) as [e|] eqn:Ht;
      [|by rewrite run_stop].
    destruct (run_step k e Ht) as (_ & _ & _ & _ & _ & _ & Hmiss).
    assert (shape_ok array (settle (run k) (MarkerInfo.pos e))) as Hok1.
    { apply shape_settle, (inv_shape _ _ (inv_run k)). }
    destruct (Hmiss p Hp) as [-> ->]; [|done].
    intros c _ _ (_ & _ & Hlt)%improves_true E; [|done].
    rewrite <- E in Hlt. simpl in Hlt. lia.
Qed.

(** A valid position that never enters the queue keeps its label. *)
Lemma never_queued k n :
  validposition array n = true ->
  (forall j e, e ∈ hqueue (run j) -> MarkerInfo.pos e <> n) ->
  at_ (res (run k)) n = at_ res0 n.
Proof.
  intros Hn Hnever. induction k as [|k IH].
  - destruct seeds_loop_spec as (_ & _ & Hq & _ & _ & Hzero).
    destruct (decide (at_ markers n = 0)) as [Hz|Hm]; [by apply Hzero|].
    destruct (marker_entries_hit markers 0 (positions markers) n)
      as (i & _ & Hi); [|done|].
    + apply elem_of_positions. unfold validposition in *.
      by rewrite (in_markers_dims _ _ _ _ Hin).
    + rewrite <- Hq in Hi. by destruct (Hnever O _ Hi).
  - destruct (top (hqueue (run k))) as [e|] eqn:Ht;
      [|by rewrite run_stop].
    destruct (run_step k e Ht) as (_ & _ & _ & Hq & _ & _ & Hmiss).
    destruct (Hmiss n Hn) as [_ ->]; [|done].
    intros c Hc Hact Himp ->.
    destruct (pushes_hit array Bc (MarkerInfo.pos e)
                (settle (run k) (MarkerInfo.pos e)) (idx (run k))
                (positions Bc) c Hc Hact Himp) as (i & _ & Hi).
    apply (Hnever (S k) (MarkerInfo.new
             (at_ array (nb (MarkerInfo.pos e) c)) i
             (nb (MarkerInfo.pos e) c))); [|done].
    rewrite Hq. apply elem_of_app. by right.
Qed.

(** C4. A position with a nonzero marker carries the marker value as its
    label after the loop over the markers, at the head of every iteration
    of the main loop, and in the array that [cwatershed] returns. *)
Theorem seeds_preserved p :
  validposition array p = true -> at_ markers p <> 0 ->
  (forall k, at_ (res (run k)) p = at_ markers p) /\
  exists r, cwatershed T res0 array markers Bc = Some r /\
    at_ r p = at_ markers p.
Proof.
  intros Hp Hm. split.
  - intros k. by apply seeds_kept.
  - destruct flood_terminates as (_ & _ & Hr).
    eexists. split; [exact Hr|]. by apply seeds_kept.
Qed.

End whole.

(** C8. For arguments of matching extents the main loop of
    [py_cwatershed] terminates: the queue is empty after at most as many
    iterations as the array has elements, so that [flood] returns with the
    fuel that [cwatershed] gives it, and with any larger fuel returns the
    same; and a valid position that never entered the queue holds the zero
    of the freshly allocated result. *)
Theorem cwatershed_terminates T array markers Bc :
  inputs_ok (array_like array 0) array markers Bc ->
  exists r, py_cwatershed T array markers Bc = Some r /\
    (exists k, (k <= size array)%nat /\
       hqueue (reached T (array_like array 0) array markers Bc k) = [] /\
       r = res (reached T (array_like array 0) array markers Bc k)) /\
    (forall fuel, (size array <= fuel)%nat ->
       res <$> flood fuel array Bc (seeds T (array_like array 0) array markers)
       = Some r) /\
    (forall n, validposition array n = true ->
       (forall j e,
          e ∈ hqueue (reached T (array_like array 0) array markers Bc j) ->
          MarkerInfo.pos e <> n) ->
       at_ r n = 0).
Proof.
  intros Hin.
  destruct (flood_terminates T _ array markers Bc Hin) as (Hf & Hq & Hr).
  eexists. split; [exact Hr|]. split; [|split].
  - exists (size (array_like array 0)). done.
  - intros fuel Hfuel.
    by rewrite (flood_fuel_le array Bc _ fuel _ _ Hfuel Hf).
  - intros n Hn Hnever.
    rewrite (never_queued T _ array markers Bc Hin _ n Hn Hnever).
    by apply at_filled.
Qed.

(** ** The priorities of the queue are [int]s *)

Section priorities.
Variables (array markers Bc : ndarray Z).

Local Abbreviation int_priority := (Spec.int_priority array markers).

Lemma int_priority_seed st p :
  Forall int_priority (hqueue st) ->
  Forall int_priority (hqueue (seed array markers st p)).
Proof.
  intros H. unfold seed. destruct (truthy _); [|done]. simpl.
  apply Forall_app. split; [done|]. constructor; [|done]. by right.
Qed.

Lemma int_priority_seeds l st :
  Forall int_priority (hqueue st) ->
  Forall int_priority (hqueue (fold_left (seed array markers) l st)).
Proof.
  revert st; induction l as [|p l IH]; intros st H; [done|].
  apply IH. by apply int_priority_seed.
Qed.

Lemma int_priority_cells p cells st :
  Forall int_priority (hqueue st) ->
  Forall int_priority
    (hqueue (fold_left (flood_cell array Bc (central_position Bc) p) cells st)).
Proof.
  revert st; induction cells as [|c cells IH]; intros st H; [done|].
  apply IH. rewrite flood_cell_eq. destruct (_ && _); [|done]. simpl.
  apply Forall_app. split; [done|]. constructor; [|done]. by left.
Qed.

Lemma int_priority_step st st' :
  Forall int_priority (hqueue st) -> flood_step array Bc st = Some st' ->
  Forall int_priority (hqueue st').
Proof.
  intros H. unfold flood_step. destruct (top (hqueue st)); [|done].
  intros [= <-]. apply int_priority_cells. simpl.
  rewrite Forall_forall in *. intros e He. by apply H, elem_of_pop.
Qed.

Lemma int_priority_iterate k st :
  Forall int_priority (hqueue st) ->
  Forall int_priority (hqueue (iterate k array Bc st)).
Proof.
  revert st; induction k as [|k IH]; intros st H; [done|]. simpl.
  destruct (flood_step array Bc st) as [st'|] eqn:E; [|done].
  apply IH. by eapply int_priority_step.
Qed.

End priorities.

Lemma to_int_range v : - 2 ^ 31 <= to_int v < 2 ^ 31.
Proof.
  unfold to_int, wrap. cbn [is_signed bits]. change (32 - 1) with 31.
  pose proof (Z.mod_pos_bound (v + 2 ^ 31) (2 ^ 32) eq_refl). lia.
Qed.

Lemma to_int_period v : to_int (v + 2 ^ 32) = to_int v.
Proof.
  unfold to_int, wrap. cbn [is_signed bits]. change (32 - 1) with 31.
  replace (v + 2 ^ 32 + 2 ^ 31) with (v + 2 ^ 31 + 1 * 2 ^ 32) by lia.
  by rewrite Z.mod_add.
Qed.

(** C9. An entry of the queue stores its priority as an [int]: the
    constructor converts the intensity or the marker it is given, whatever
    the element type, and the queue compares the converted values.  In
    every state of a run the priority of an entry is the conversion of the
    intensity or of the marker at its position; values that differ by a
    multiple of [2 ^ 32] get the same priority.  With 64-bit elements the
    intensity [2 ^ 32] gets the priority 0 and is served before a pending
    entry of priority 2. *)
Theorem queue_priority_is_int :
  (forall v i p,
     MarkerInfo.cost (MarkerInfo.new v i p) = to_int v /\
     - 2 ^ 31 <= to_int v < 2 ^ 31 /\
     to_int (v + 2 ^ 32) = to_int v) /\
  (forall T res0 array markers Bc k,
     Forall (int_priority array markers)
       (hqueue (reached T res0 array markers Bc k))) /\
  (let a := row [0; 2 ^ 32; 5; 1; 0] in
   let m := row [1; 0; 0; 0; 2] in
   let st := reached Int64 (array_like a 0) a m (row [1; 1; 1]) 1 in
   hqueue st = [MarkerInfo.new 2 1 [4]; MarkerInfo.new (2 ^ 32) 2 [1]] /\
   top (hqueue st) = Some (MarkerInfo.new (2 ^ 32) 2 [1]) /\
   py_cwatershed Int64 a m (row [1; 1; 1]) = Some (row [1; 1; 1; 2; 2]) /\
   py_cwatershed Int64 (row [0; 6; 5; 1; 0]) m (row [1; 1; 1])
   = Some (row [1; 1; 2; 2; 2])).
Proof.
  split; [|split].
  - intros v i p. split; [done|]. split; [apply to_int_range|].
    apply to_int_period.
  - intros T res0 array markers Bc k. unfold reached.
    apply int_priority_iterate. unfold seeds.
    apply int_priority_seeds. constructor.
  - repeat split; vm_compute; reflexivity.
Qed.

(** ** Examples *)

Lemma ex_inputs :
  inputs_ok (array_like ex_array 0) ex_array ex_markers ex_Bc.
Proof. split; try wf_by_compute; reflexivity. Defined.

(** The example of the specification: the labels of the two markers meet
    between the indices 1 and 2. *)
Example ex_labels :
  py_cwatershed Int32 ex_array ex_markers ex_Bc = Some (row [1; 1; 2; 2; 2]).
Proof. reflexivity. Qed.


Lemma pop_least_witness :
  MarkerInfo.mk 1 0 [0]
    ∈ hqueue (reached Int32 (array_like ex_array 0) ex_array ex_markers
                ex_Bc 0) /\
  exists q1 q2,
    hqueue (reached Int32 (array_like ex_array 0) ex_array ex_markers ex_Bc 0)
    = q1 ++ MarkerInfo.mk 1 0 [0] :: q2 /\
    hqueue (settle (reached Int32 (array_like ex_array 0) ex_array ex_markers
                      ex_Bc 0) [0])
    = q1 ++ q2 /\
    (forall e', e' ∈ q1 -> MarkerInfo.idx e' < 0 /\ 1 < MarkerInfo.cost e') /\
    (forall e', e' ∈ q2 -> 0 < MarkerInfo.idx e' /\ 1 <= MarkerInfo.cost e').
Proof.
  pose proof (pop_least Int32 (array_like ex_array 0) ex_array ex_markers
                ex_Bc ex_inputs 0 (MarkerInfo.mk 1 0 [0])) as H.
  destruct H as (H1 & _ & _ & H4); [reflexivity|].
  split; [exact H1 | exact H4].
Defined.

(** C3 as stated fails for a label outside the range of [int]: the
    64-bit marker [2 ^ 32 + 1] is queued with the priority 1. *)
Lemma seeds_priority_not_marker :
  at_ ex64_markers [0] = 2 ^ 32 + 1 /\
  hqueue (seeds Int64 (array_like ex8_array 0) ex8_array ex64_markers)
  = [MarkerInfo.mk 1 0 [0]] /\
  ~ (forall T res0 array markers Bc p e,
       inputs_ok res0 array markers Bc ->
       validposition array p = true -> at_ markers p <> 0 ->
       e ∈ hqueue (seeds T res0 array markers) -> MarkerInfo.pos e = p ->
       MarkerInfo.cost e = at_ markers p).
Proof.
  split; [reflexivity|]. split; [reflexivity|].
  intros H.
  specialize (H Int64 (array_like ex8_array 0) ex8_array ex64_markers ex_Bc
                [0] (MarkerInfo.mk 1 0 [0])).
  assert (1 = 4294967297) as Heq; [|discriminate].
  apply H; [|reflexivity|discriminate| |reflexivity].
  - split; try wf_by_compute; reflexivity.
  - change (MarkerInfo.mk 1 0 [0] ∈ [MarkerInfo.mk 1 0 [0]]). by left.
Qed.

Lemma seeds_spec_witness :
  at_ (cost (seeds Int32 (array_like ex_array 0) ex_array ex_markers)) [0] = 5 /\
  at_ (res (seeds Int32 (array_like ex_array 0) ex_array ex_markers)) [0] = 1 /\
  (exists i,
     0 <= i < idx (seeds Int32 (array_like ex_array 0) ex_array ex_markers) /\
     MarkerInfo.mk 1 i [0]
       ∈ hqueue (seeds Int32 (array_like ex_array 0) ex_array ex_markers)) /\
  (forall e,
     e ∈ hqueue (seeds Int32 (array_like ex_array 0) ex_array ex_markers) ->
     MarkerInfo.pos e = [0] -> MarkerInfo.cost e = 1).
Proof.
  pose proof (seeds_spec Int32 (array_like ex_array 0) ex_array ex_markers
                ex_Bc ex_inputs [0]) as H.
  destruct H as (_ & _ & H & _); [reflexivity|].
  destruct H as (Hc & Hr & Hex & Hall); [discriminate|].
  split; [exact Hc|]. split; [exact Hr|]. split; [exact Hex|].
  intros e He Hpos. destruct (Hall e He Hpos) as (_ & _ & Hsmall).
  apply Hsmall. vm_compute. split; [discriminate | reflexivity].
Defined.

Lemma seeds_preserved_witness :
  exists r,
    cwatershed Int32 (array_like ex_array 0) ex_array ex_markers ex_Bc
    = Some r /\ at_ r [3] = 2.
Proof.
  pose proof (seeds_preserved Int32 (array_like ex_array 0) ex_array
                ex_markers ex_Bc ex_inputs [3]) as H.
  destruct H as (_ & H); [reflexivity | discriminate |]. exact H.
Defined.

(** An intensity equal to the maximum of the element type is never below
    the initial cost: the indices 1 and 2 never enter the queue and stay
    at zero. *)
Example ex_unreached :
  py_cwatershed Int8 ex8_array ex8_markers ex_Bc = Some (row [1; 0; 0]).
Proof. reflexivity. Qed.

Lemma cwatershed_terminates_witness :
  exists r,
    py_cwatershed Int8 ex8_array ex8_markers ex_Bc = Some r /\
    (exists k, (k <= size ex8_array)%nat /\
       hqueue (reached Int8 (array_like ex8_array 0) ex8_array ex8_markers
                 ex_Bc k) = [] /\
       r = res (reached Int8 (array_like ex8_array 0) ex8_array ex8_markers
                  ex_Bc k)) /\
    (forall fuel, (size ex8_array <= fuel)%nat ->
       res <$> flood fuel ex8_array ex_Bc
                 (seeds Int8 (array_like ex8_array 0) ex8_array ex8_markers)
       = Some r) /\
    (forall n, validposition ex8_array n = true ->
       (forall j e,
          e ∈ hqueue (reached Int8 (array_like ex8_array 0) ex8_array
                        ex8_markers ex_Bc j) ->
          MarkerInfo.pos e <> n) ->
       at_ r n = 0).
Proof.
  apply (cwatershed_terminates Int8 ex8_array ex8_markers ex_Bc).
  split; try wf_by_compute; reflexivity.
Defined.

(* ===================================================================== *)
(** ** Further properties of [cwatershed] *)
(* ===================================================================== *)

Lemma marker_entries_none markers i l :
  (forall p, p ∈ l -> at_ markers p = 0) -> marker_entries markers i l = [].
Proof.
  revert i; induction l as [|p l IH]; intros i H; [done|].
  cbn [marker_entries].
  assert (truthy (at_ markers p) = false) as ->
    by (apply truthy_false, H; by left).
  apply IH. intros q Hq. apply H. by right.
Qed.

(** What a scan makes of one valid position [n]: either some active cell
    reaches [n] and [n] improves, or [n] keeps its cost and label and gets
    no entry. *)
Lemma scanned_cases array Bc p cells st st' n :
  scanned array Bc p cells st st' -> validposition array n = true ->
  (improves array st n = true /\
   (exists c, c ∈ cells /\ truthy (at_ Bc c) = true /\
      n = neighbour p c (central_position Bc)) /\
   at_ (cost st') n = at_ array n /\
   at_ (res st') n = at_ (res st) p /\
   exists i, MarkerInfo.new (at_ array n) i n
               ∈ pushes array Bc p st (idx st) cells)
  \/
  (at_ (cost st') n = at_ (cost st) n /\
   at_ (res st') n = at_ (res st) n /\
   (forall e, e ∈ pushes array Bc p st (idx st) cells ->
      MarkerInfo.pos e <> n) /\
   (forall c, c ∈ cells -> truthy (at_ Bc c) = true ->
      n = neighbour p c (central_position Bc) ->
      improves array st n = false)).
Proof.
  intros (_ & _ & _ & _ & Hhit & Hmiss) Hn.
  destruct (decide (Exists (fun c =>
              truthy (at_ Bc c) = true /\
              improves array st (neighbour p c (central_position Bc)) = true /\
              n = neighbour p c (central_position Bc)) cells)) as [Hex|Hno].
  - left. apply Exists_exists in Hex as (c & Hc & Hact & Himp & ->).
    destruct (Hhit c Hc Hact Himp) as [Hcost Hres].
    destruct (pushes_hit array Bc p st (idx st) cells c Hc Hact Himp)
      as (i & _ & Hi).
    split; [done|]. split; [by exists c|]. split; [done|]. split; [done|].
    by exists i.
  - right. rewrite Exists_exists in Hno.
    destruct (Hmiss n Hn) as [Hcost Hres].
    { intros c Hc Hact Himp ->. apply Hno. by exists c. }
    split; [done|]. split; [done|]. split.
    + intros e (c & Hc & Hact & Himp & He & _)%elem_of_pushes Hpos.
      rewrite He in Hpos. simpl in Hpos. apply Hno. exists c. by subst n.
    + intros c Hc Hact ->.
      destruct (improves array st _) eqn:E; [|done].
      exfalso. apply Hno. by exists c.
Qed.

Lemma NoDup_pushes array Bc p st i cells :
  NoDup cells -> (forall c, c ∈ cells -> length c = length p) ->
  length (central_position Bc) = length p ->
  NoDup (MarkerInfo.pos <$> pushes array Bc p st i cells).
Proof.
  intros Hnd Hlen Hce. revert i.
  induction cells as [|c cells IH]; intros i; [constructor|].
  apply NoDup_cons in Hnd as [Hc Hnd].
  specialize (IH Hnd (fun c' H => Hlen c' (list_elem_of_further _ _ _ H))).
  cbn [pushes]. destruct (_ && _); [|apply IH].
  rewrite fmap_cons. apply NoDup_cons. split; [|apply IH].
  intros (e & Hpos & He)%list_elem_of_fmap.
  apply elem_of_pushes in He as (c' & Hc' & _ & _ & He & _).
  rewrite He in Hpos. simpl in Hpos. apply Hc.
  replace c with c'; [done|].
  apply (neighbour_inj p c' c (central_position Bc)); auto.
  - apply Hlen. by right.
  - apply Hlen. by left.
Qed.

Lemma NoDup_marker_entries markers i l :
  NoDup l -> NoDup (MarkerInfo.pos <$> marker_entries markers i l).
Proof.
  intros Hnd. revert i.
  induction l as [|p l IH]; intros i; [constructor|].
  apply NoDup_cons in Hnd as [Hp Hnd]. specialize (IH Hnd).
  cbn [marker_entries]. destruct (truthy _); [|apply IH].
  rewrite fmap_cons. apply NoDup_cons. split; [|apply IH].
  intros (e & Hpos & He)%list_elem_of_fmap.
  apply elem_of_marker_entries in He as (p' & Hp' & _ & He & _).
  rewrite He in Hpos. simpl in Hpos. by subst p'.
Qed.

Lemma NoDup_fmap_eq {A B} (f : A -> B) (l : list A) x y :
  NoDup (f <$> l) -> x ∈ l -> y ∈ l -> f x = f y -> x = y.
Proof.
  induction l as [|a l IH]; intros Hnd Hx Hy Hf;
    [by apply elem_of_nil in Hx|].
  rewrite fmap_cons in Hnd. apply NoDup_cons in Hnd as [Ha Hnd].
  apply elem_of_cons in Hx as [->|Hx], Hy as [->|Hy]; auto.
  - destruct Ha. rewrite Hf. by apply list_elem_of_fmap_2.
  - destruct Ha. rewrite <- Hf. by apply list_elem_of_fmap_2.
Qed.

Section more.
Variables (T : itype) (res0 array markers Bc : ndarray Z).
Hypothesis Hin : inputs_ok res0 array markers Bc.

Local Abbreviation nb p c := (neighbour p c (central_position Bc)).
Local Abbreviation st0 := (seeds T res0 array markers).
Local Abbreviation run k := (reached T res0 array markers Bc k).
Local Abbreviation fin := (reached T res0 array markers Bc (size res0)).

(** One iteration of the main loop, seen from a valid position [n]. *)
Lemma step_at k e n :
  top (hqueue (run k)) = Some e -> validposition array n = true ->
  validposition array (MarkerInfo.pos e) = true /\
  e ∈ hqueue (run k) /\
  (forall e', e' ∈ hqueue (run k) -> e' <> e -> e' ∈ hqueue (run (S k))) /\
  at_ (status (run (S k))) n
  = (if decide (MarkerInfo.pos e = n) then true
     else at_ (status (run k)) n) /\
  ((n <> MarkerInfo.pos e /\ at_ (status (run k)) n = false /\
    at_ array n < at_ (cost (run k)) n /\
    at_ (cost (run (S k))) n = at_ array n /\
    at_ (res (run (S k))) n = at_ (res (run k)) (MarkerInfo.pos e) /\
    (exists i, MarkerInfo.new (at_ array n) i n ∈ hqueue (run (S k))) /\
    (exists c, validposition Bc c = true /\ at_ Bc c <> 0 /\
       n = nb (MarkerInfo.pos e) c))
   \/
   (at_ (cost (run (S k))) n = at_ (cost (run k)) n /\
    at_ (res (run (S k))) n = at_ (res (run k)) n /\
    (forall e', e' ∈ hqueue (run (S k)) -> MarkerInfo.pos e' = n ->
       e' ∈ hqueue (run k) /\ e' <> e) /\
    (forall c, validposition Bc c = true -> at_ Bc c <> 0 ->
       n = nb (MarkerInfo.pos e) c ->
       n = MarkerInfo.pos e \/ at_ (status (run k)) n = true \/
       at_ (cost (run k)) n <= at_ array n))).
Proof.
  intros Ht Hn.
  pose proof (inv_run T res0 array markers Bc Hin k) as [Hok Hval Hidx Hsort].
  destruct (top_spec _ _ Ht) as [He _].
  pose proof (Hval e He) as HP.
  destruct (run_step T res0 array markers Bc Hin k e Ht) as (_ & Hsc).
  pose proof Hsc as (_ & Hst & Hq & _ & _ & _).
  destruct (pop_split _ _ Ht) as (q1 & q2 & Hq0 & Hpop & Hn1).
  cbn [settle hqueue idx status] in Hst, Hq.
  assert (shape_ok array (settle (run k) (MarkerInfo.pos e))) as Hok1
    by by apply shape_settle.
  assert (at_ (status (settle (run k) (MarkerInfo.pos e))) n
          = if decide (MarkerInfo.pos e = n) then true
            else at_ (status (run k)) n) as Hs1.
  { simpl. apply at_put_case; [apply Hok|..];
      by rewrite (valid_status array). }
  split; [done|]. split; [done|]. split.
  { intros e' He' Hne. rewrite Hq, Hpop. rewrite Hq0 in He'.
    rewrite !elem_of_app in *. rewrite elem_of_cons in He'.
    destruct He' as [?|[?|?]]; [by left; left | done | by left; right]. }
  split; [by rewrite Hst|].
  destruct (scanned_cases _ _ _ _ _ _ n Hsc Hn)
    as [(Himp & (c & Hc & Hact & Hnb) & Hcost & Hres & (i & Hi))
       |(Hcost & Hres & Hnop & Hnoimp)].
  - left. apply improves_true in Himp as (_ & Hs & Hlt); [|done].
    rewrite Hs1 in Hs. simpl in Hlt, Hres.
    destruct (decide (MarkerInfo.pos e = n)) as [|Hne]; [done|].
    split; [congruence|]. split; [done|]. split; [done|]. split; [done|].
    split; [done|]. split.
    + exists i. rewrite Hq. apply elem_of_app. by right.
    + exists c. apply elem_of_positions in Hc. apply truthy_true in Hact.
      done.
  - right. simpl in Hcost, Hres. split; [done|]. split; [done|]. split.
    + intros e'. rewrite Hq. intros [He'|He']%elem_of_app Hpos;
        [|by destruct (Hnop e' He')].
      split; [by apply elem_of_pop|]. intros ->.
      (* the popped entry is not among the others: its index is unique *)
      rewrite Hpop in He'. rewrite Hq0 in Hsort.
      apply StronglySorted_app in Hsort as (Hcross & _ & Hs2).
      apply StronglySorted_cons in Hs2 as [Hs2 _].
      rewrite Forall_forall in Hs2.
      apply elem_of_app in He' as [He'|He'].
      * specialize (Hcross e e He' ltac:(by left)). lia.
      * specialize (Hs2 e He'). lia.
    + intros c Hc%elem_of_positions Hact%truthy_true Hnb.
      specialize (Hnoimp c Hc Hact Hnb).
      destruct (decide (MarkerInfo.pos e = n)) as [|Hne]; [by left|].
      destruct (at_ (status (run k)) n) eqn:Hs; [by right; left|].
      right; right.
      destruct (Z.le_gt_cases (at_ (cost (run k)) n) (at_ array n))
        as [|Hlt]; [done|].
      assert (improves array (settle (run k) (MarkerInfo.pos e)) n = true)
        as Himp; [|congruence].
      apply improves_true; [done|]. rewrite Hs1. simpl. split; [done|].
      split; [done | lia].
Qed.

Lemma step_none k : top (hqueue (run k)) = None -> run (S k) = run k.
Proof. apply run_stop. Qed.

(** A settled position keeps its status, cost and label. *)
Lemma settled_stays k n :
  validposition array n = true -> at_ (status (run k)) n = true ->
  at_ (status (run (S k))) n = true /\
  at_ (res (run (S k))) n = at_ (res (run k)) n /\
  at_ (cost (run (S k))) n = at_ (cost (run k)) n.
Proof.
  intros Hn Hs.
  destruct (top (hqueue (run k))) as [e|] eqn:Ht; [|by rewrite step_none].
  destruct (step_at k e n Ht Hn) as (_ & _ & _ & Hs' & Hcase).
  split; [rewrite Hs'; by case_decide|].
  destruct Hcase as [(_ & Hf & _)|(? & ? & _)]; [congruence | done].
Qed.

Lemma settled_stays_le k j n :
  (k <= j)%nat -> validposition array n = true ->
  at_ (status (run k)) n = true ->
  at_ (status (run j)) n = true /\
  at_ (res (run j)) n = at_ (res (run k)) n /\
  at_ (cost (run j)) n = at_ (cost (run k)) n.
Proof.
  intros Hle Hn Hs. induction Hle as [|j Hle (IHs & IHr & IHc)]; [done|].
  destruct (settled_stays j n Hn IHs) as (? & ? & ?).
  split; [done|]. split; congruence.
Qed.

(** X10. Without a marker the main loop does not run: [cwatershed]
    returns [res] as it received it. *)
Theorem no_markers :
  (forall p, validposition array p = true -> at_ markers p = 0) ->
  cwatershed T res0 array markers Bc = Some res0.
Proof.
  intros Hzero.
  destruct (seeds_loop_spec T res0 array markers Bc Hin)
    as (Hok & _ & Hq & _ & _ & Hmiss).
  assert (hqueue st0 = []) as Hempty.
  { rewrite Hq. apply marker_entries_none.
    intros p Hp%elem_of_positions. apply Hzero. unfold validposition in *.
    by rewrite <- (in_markers_dims _ _ _ _ Hin). }
  assert (res st0 = res0) as Hres.
  { apply ndarray_ext; [apply Hok | apply Hin | |].
    - rewrite (ok_res_dims _ _ Hok). symmetry. apply Hin.
    - intros p Hp. rewrite (valid_res array) in Hp by done.
      by apply Hmiss; [|apply Hzero]. }
  unfold cwatershed.
  assert (flood (size res0) array Bc st0 = Some st0) as ->.
  { assert (flood_step array Bc st0 = None) as Hstep
      by (unfold flood_step; by rewrite Hempty).
    destruct (size res0); cbn [flood]; by rewrite Hstep. }
  simpl. by rewrite Hres.
Qed.

(** X11. A position that has been popped is settled for good: at every
    later iteration of the main loop it is still marked in [status] and
    has the cost and the label it had. *)
Theorem settled_is_final k j n :
  (k <= j)%nat -> validposition array n = true ->
  at_ (status (run k)) n = true ->
  at_ (status (run j)) n = true /\
  at_ (res (run j)) n = at_ (res (run k)) n /\
  at_ (cost (run j)) n = at_ (cost (run k)) n.
Proof.
  intros Hle Hn Hs. induction Hle as [|j Hle (IHs & IHr & IHc)]; [done|].
  destruct (top (hqueue (run j))) as [e|] eqn:Ht; [|by rewrite step_none].
  destruct (step_at j e n Ht Hn) as (_ & _ & _ & Hs' & Hcase).
  split; [rewrite Hs'; by case_decide|].
  destruct Hcase as [(_ & Hf & _)|(Hc & Hr & _)]; [congruence|].
  split; congruence.
Qed.

(** X12. A position without a marker whose intensity is not below the
    maximum of the element type is never labelled: the strict comparison
    with the initial cost fails, and [cwatershed] returns the label that
    [res] held there. *)
Theorem max_intensity_unlabelled n :
  validposition array n = true -> at_ markers n = 0 ->
  max_value T <= at_ array n ->
  (forall k, at_ (res (run k)) n = at_ res0 n) /\
  exists r, cwatershed T res0 array markers Bc = Some r /\
    at_ r n = at_ res0 n.
Proof.
  intros Hn Hm Hmax.
  assert (forall k, at_ (res (run k)) n = at_ res0 n /\
                    at_ (cost (run k)) n = max_value T) as Hk.
  { induction k as [|k [IHr IHc]].
    - destruct (seeds_loop_spec T res0 array markers Bc Hin)
        as (_ & _ & _ & _ & _ & Hmiss).
      destruct (Hmiss n Hn Hm). done.
    - destruct (top (hqueue (run k))) as [e|] eqn:Ht; [|by rewrite step_none].
      destruct (step_at k e n Ht Hn) as (_ & _ & _ & _ & Hcase).
      destruct Hcase as [(_ & _ & Hlt & _)|(-> & -> & _)]; [lia | done]. }
  split; [intros k; apply Hk|].
  destruct (flood_terminates T res0 array markers Bc Hin) as (_ & _ & Hr).
  eexists. split; [exact Hr | apply Hk].
Qed.

(** X13. The insertion counter never exceeds the number of elements, and
    the indices of the entries are below it: on an array of fewer than
    [2 ^ 31] elements they are values of the [int] that the source keeps
    them in. *)
Theorem pushes_bounded k :
  0 <= idx (run k) <= Z.of_nat (size res0) /\
  (Z.of_nat (size res0) < 2 ^ 31 ->
   to_int (idx (run k)) = idx (run k) /\
   forall e, e ∈ hqueue (run k) ->
     to_int (MarkerInfo.idx e) = MarkerInfo.idx e).
Proof.
  destruct (idx_bounded T res0 array markers Bc Hin k) as [Hidx He].
  split; [done|]. intros Hsmall. split.
  - apply to_int_small. lia.
  - intros e Hin'. apply to_int_small. specialize (He e Hin'). lia.
Qed.

(** Every valid position is untouched, settled, or waiting in the queue. *)
Lemma reach_inv k n :
  validposition array n = true ->
  untouched T res0 markers (run k) n \/
  at_ (status (run k)) n = true \/
  exists e, e ∈ hqueue (run k) /\ MarkerInfo.pos e = n.
Proof.
  intros Hn. induction k as [|k IH].
  - destruct (seeds_loop_spec T res0 array markers Bc Hin)
      as (_ & Hst & Hq & _ & _ & Hmiss).
    destruct (decide (at_ markers n = 0)) as [Hz|Hm].
    + left. destruct (Hmiss n Hn Hz) as [Hc Hr].
      split; [done|]. split; [done|]. split; [done|].
      unfold reached, iterate. rewrite Hst. by apply at_filled.
    + right; right.
      destruct (marker_entries_hit markers 0 (positions markers) n)
        as (i & _ & Hi); [|done|].
      * apply elem_of_positions. unfold validposition in *.
        by rewrite (in_markers_dims _ _ _ _ Hin).
      * eexists. split; [unfold reached, iterate; rewrite Hq; exact Hi|done].
  - destruct (top (hqueue (run k))) as [e|] eqn:Ht; [|by rewrite step_none].
    destruct (step_at k e n Ht Hn) as (_ & _ & Hkeep & Hs' & Hcase).
    destruct Hcase as [(_ & _ & _ & _ & _ & (i & Hi) & _)|(Hc & Hr & _ & _)].
    { right; right. by eexists. }
    destruct (decide (MarkerInfo.pos e = n)) as [Heq|Hne];
      [by right; left|].
    destruct IH as [(Hm & Hc0 & Hr0 & Hs0)|[Hs0|(e' & He' & Hpos)]].
    + left. split; [done|]. rewrite Hc, Hr, Hs'. done.
    + right; left. by rewrite Hs'.
    + right; right. exists e'. split; [|done]. apply Hkeep; [done|].
      intros ->. done.
Qed.

(** The label of a queued or settled position is a marker. *)
Lemma label_inv k :
  (forall e, e ∈ hqueue (run k) ->
     marker_label array markers (at_ (res (run k)) (MarkerInfo.pos e))) /\
  (forall n, validposition array n = true ->
     at_ (status (run k)) n = true ->
     marker_label array markers (at_ (res (run k)) n)).
Proof.
  induction k as [|k [IHq IHs]].
  - destruct (seeds_loop_spec T res0 array markers Bc Hin)
      as (_ & Hst & Hq & _ & Hhit & _).
    unfold reached, iterate. split.
    + intros e. rewrite Hq.
      intros (p & Hp%elem_of_positions & Hm & -> & _)%elem_of_marker_entries.
      simpl. assert (validposition array p = true) as Hp'.
      { unfold validposition in *.
        by rewrite <- (in_markers_dims _ _ _ _ Hin). }
      destruct (Hhit p Hp' Hm) as [_ ->]. by exists p.
    + intros n Hn. rewrite Hst, at_filled by done. discriminate.
  - destruct (top (hqueue (run k))) as [e|] eqn:Ht; [|by rewrite step_none].
    pose proof (inv_valid _ _ (inv_run T res0 array markers Bc Hin (S k)))
      as Hval.
    assert (forall n, validposition array n = true ->
              (exists e', e' ∈ hqueue (run (S k)) /\ MarkerInfo.pos e' = n) \/
              at_ (status (run (S k))) n = true ->
              marker_label array markers (at_ (res (run (S k))) n)) as Hboth.
    { intros n Hn Hor.
      destruct (step_at k e n Ht Hn) as (_ & He & _ & Hs' & Hcase).
      destruct Hcase as [(_ & _ & _ & _ & -> & _)|(_ & -> & Hold & _)];
        [by apply IHq|].
      destruct Hor as [(e' & He' & Hpos)|Hs].
      - destruct (Hold e' He' Hpos) as [He0 _]. rewrite <- Hpos. by apply IHq.
      - rewrite Hs' in Hs. destruct (decide (MarkerInfo.pos e = n)) as [<-|_];
          [by apply IHq | by apply IHs]. }
    split.
    + intros e' He'. apply Hboth; [by apply Hval|]. left. by exists e'.
    + intros n Hn Hs. apply Hboth; [done | by right].
Qed.

(** X14. When [cwatershed] returns, every valid position is either
    settled, and then labelled with the marker of some position, or
    untouched: without a marker, at the initial cost, with the label that
    [res] held.  In particular every marked position is settled. *)
Theorem result_partition n :
  validposition array n = true ->
  cwatershed T res0 array markers Bc = Some (res fin) /\
  hqueue fin = [] /\
  (untouched T res0 markers fin n \/
   (at_ (status fin) n = true /\
    marker_label array markers (at_ (res fin) n))).
Proof.
  intros Hn.
  destruct (flood_terminates T res0 array markers Bc Hin) as (_ & Hq & Hr).
  split; [done|]. split; [done|].
  destruct (reach_inv (size res0) n Hn) as [Hu|[Hs|(e & He & _)]].
  - by left.
  - right. split; [done|]. by apply label_inv.
  - rewrite Hq in He. by apply elem_of_nil in He.
Qed.

(** The neighbours of a settled position through the active cells are
    settled, queued, or too bright to be flooded. *)
Lemma cover_inv k p c :
  validposition array p = true -> at_ (status (run k)) p = true ->
  validposition Bc c = true -> at_ Bc c <> 0 ->
  validposition array (nb p c) = true ->
  at_ (status (run k)) (nb p c) = true \/
  (exists e, e ∈ hqueue (run k) /\ MarkerInfo.pos e = nb p c) \/
  max_value T <= at_ array (nb p c).
Proof.
  intros Hp Hs Hc Hact Hn. induction k as [|k IH].
  - destruct (seeds_loop_spec T res0 array markers Bc Hin) as (_ & Hst & _).
    unfold reached, iterate in Hs. rewrite Hst, at_filled in Hs by done.
    discriminate.
  - destruct (top (hqueue (run k))) as [e|] eqn:Ht;
      [|rewrite step_none in *; auto].
    destruct (step_at k e (nb p c) Ht Hn) as (_ & _ & Hkeep & Hs' & Hcase).
    assert (forall e', e' ∈ hqueue (run k) -> MarkerInfo.pos e' = nb p c ->
              at_ (status (run (S k))) (nb p c) = true \/
              exists e'', e'' ∈ hqueue (run (S k)) /\
                          MarkerInfo.pos e'' = nb p c) as Hqueued.
    { intros e' He' Hpos. destruct (decide (e' = e)) as [->|Hne].
      - left. rewrite Hs', decide_True; done.
      - right. exists e'. split; [by apply Hkeep | done]. }
    assert (at_ (status (run k)) (nb p c) = true ->
            at_ (status (run (S k))) (nb p c) = true) as Hstay.
    { intros H. rewrite Hs'. by case_decide. }
    destruct (step_at k e p Ht Hp) as (_ & _ & _ & Hsp & _).
    rewrite Hsp in Hs.
    destruct (decide (MarkerInfo.pos e = p)) as [HP|HP].
    + (* [p] is the position popped in this iteration *)
      destruct Hcase as [(_ & _ & _ & _ & _ & (i & Hi) & _)|(_ & _ & _ & Hno)].
      { right; left. by eexists. }
      destruct (Hno c Hc Hact ltac:(by rewrite HP)) as [Heq|[Hset|Hle]].
      * left. rewrite Hs', decide_True; done.
      * left. by apply Hstay.
      * destruct (reach_inv k (nb p c) Hn)
          as [(_ & Hmax & _)|[Hset|(e' & He' & Hpos)]].
        -- right; right. lia.
        -- left. by apply Hstay.
        -- destruct (Hqueued e' He' Hpos); auto.
    + (* [p] was settled before *)
      destruct (IH Hs) as [Hset|[(e' & He' & Hpos)|Hmax]].
      * left. by apply Hstay.
      * destruct (Hqueued e' He' Hpos); auto.
      * by right; right.
Qed.

(** X15. The flood is complete: when [cwatershed] returns, a valid
    neighbour, through an active cell, of a settled position is itself
    settled and labelled with a marker, unless its intensity is not below
    the maximum of the element type. *)
Theorem flood_complete p c :
  validposition array p = true -> at_ (status fin) p = true ->
  validposition Bc c = true -> at_ Bc c <> 0 ->
  validposition array (nb p c) = true ->
  (at_ (status fin) (nb p c) = true /\
   marker_label array markers (at_ (res fin) (nb p c))) \/
  max_value T <= at_ array (nb p c).
Proof.
  intros Hp Hs Hc Hact Hn.
  destruct (flood_terminates T res0 array markers Bc Hin) as (_ & Hq & _).
  destruct (cover_inv (size res0) p c Hp Hs Hc Hact Hn)
    as [Hset|[(e & He & _)|Hmax]].
  - left. split; [done|]. by apply label_inv.
  - rewrite Hq in He. by apply elem_of_nil in He.
  - by right.
Qed.

(** The queue holds every position at most once, and only positions that
    are not settled and whose cost is their intensity. *)
Lemma queue_inv k :
  NoDup (MarkerInfo.pos <$> hqueue (run k)) /\
  forall e, e ∈ hqueue (run k) ->
    at_ (status (run k)) (MarkerInfo.pos e) = false /\
    at_ (cost (run k)) (MarkerInfo.pos e) = at_ array (MarkerInfo.pos e).
Proof.
  induction k as [|k [IHn IHe]].
  - destruct (seeds_loop_spec T res0 array markers Bc Hin)
      as (_ & Hst & Hq & _ & Hhit & _).
    unfold reached, iterate. rewrite Hq. split.
    + apply NoDup_marker_entries, NoDup_positions.
    + intros e (p & Hp%elem_of_positions & Hm & -> & _)%elem_of_marker_entries.
      simpl. assert (validposition array p = true) as Hp'.
      { unfold validposition in *.
        by rewrite <- (in_markers_dims _ _ _ _ Hin). }
      rewrite Hst, at_filled by done. split; [done|]. by apply Hhit.
  - destruct (top (hqueue (run k))) as [e|] eqn:Ht; [|by rewrite step_none].
    pose proof (inv_run T res0 array markers Bc Hin k) as [Hok Hval _ _].
    pose proof (inv_valid _ _ (inv_run T res0 array markers Bc Hin (S k)))
      as Hval'.
    destruct (top_spec _ _ Ht) as [He _].
    pose proof (Hval e He) as HP.
    destruct (run_step T res0 array markers Bc Hin k e Ht)
      as (_ & _ & _ & Hq & _ & _ & _).
    destruct (pop_split _ _ Ht) as (q1 & q2 & Hq0 & Hpop & _).
    cbn [settle hqueue idx] in Hq.
    split.
    + rewrite Hq, fmap_app. apply NoDup_app. split; [|split].
      * rewrite Hpop. rewrite Hq0, fmap_app, fmap_cons in IHn.
        apply NoDup_app in IHn as (H1 & Hx & H2).
        apply NoDup_cons in H2 as [_ H2].
        rewrite fmap_app. apply NoDup_app. split; [done|]. split; [|done].
        intros x Hx1 Hx2. apply (Hx x Hx1). by right.
      * intros x (e1 & -> & He1%elem_of_pop)%list_elem_of_fmap
                 (e2 & Hpos & He2)%list_elem_of_fmap.
        apply elem_of_pushes in He2 as (c & _ & _ & Himp & He2 & _).
        apply improves_true in Himp as (_ & _ & Hlt);
          [|by apply shape_settle].
        rewrite He2 in Hpos. simpl in Hpos, Hlt. rewrite <- Hpos in Hlt.
        destruct (IHe e1 He1) as [_ Hc]. lia.
      * pose proof (in_bounds_length _ _ HP) as Hlp.
        apply NoDup_pushes; [apply NoDup_positions| |].
        -- intros c Hc%elem_of_positions. apply in_bounds_length in Hc.
           pose proof (in_ndim _ _ _ _ Hin). lia.
        -- unfold central_position. rewrite length_map.
           pose proof (in_ndim _ _ _ _ Hin). lia.
    + intros e' He'. pose proof (Hval' e' He') as Hn.
      destruct (step_at k e _ Ht Hn) as (_ & _ & _ & Hs' & Hcase).
      destruct Hcase as [(Hne & Hs & _ & Hc & _)|(Hc & _ & Hold & _)].
      * rewrite Hs', decide_False by done. done.
      * destruct (Hold e' He' eq_refl) as [He0 Hne].
        destruct (IHe e' He0) as [Hs Hc0].
        rewrite Hs', Hc, decide_False; [done|].
        intros Heq. apply Hne. symmetry.
        by apply (NoDup_fmap_eq MarkerInfo.pos (hqueue (run k))).
Qed.

(** X16. No position is in the queue twice, and a position that has been
    popped never enters the queue again: every position is popped at most
    once. *)
Theorem queued_once k j n :
  NoDup (MarkerInfo.pos <$> hqueue (run j)) /\
  ((k <= j)%nat -> validposition array n = true ->
   at_ (status (run k)) n = true ->
   forall e, e ∈ hqueue (run j) -> MarkerInfo.pos e <> n).
Proof.
  destruct (queue_inv j) as [Hnd Hent]. split; [done|].
  intros Hle Hn Hs e He Hpos.
  destruct (settled_stays_le k j n Hle Hn Hs) as (Hs' & _).
  destruct (Hent e He) as [Hf _]. congruence.
Qed.

(** A path stays a path when more positions are allowed on it. *)
Lemma flood_path_mono (ok ok' : position -> Prop) s n :
  (forall p, ok p -> ok' p) ->
  flood_path Bc ok s n -> flood_path Bc ok' s n.
Proof.
  intros Hsub Hpath. induction Hpath as [s Hs|s p n c _ IH Hc Hact Hnb Hne Hn].
  - apply path_start. by apply Hsub.
  - eapply path_step; eauto.
Qed.

(** The region of a marker only grows. *)
Lemma in_region_step k s p :
  in_region array markers (run k) s p ->
  in_region array markers (run (S k)) s p.
Proof.
  intros (Hp & Hs & Hr).
  destruct (settled_stays k p Hp Hs) as (Hs' & Hr' & _).
  split; [done|]. split; [done | congruence].
Qed.

(** A queued or settled position has the label of a marker, and is the
    position of that marker or the neighbour, through an active cell, of
    the end of a path that the region of the marker holds. *)
Lemma path_inv k n :
  validposition array n = true ->
  at_ (status (run k)) n = true \/
  (exists e, e ∈ hqueue (run k) /\ MarkerInfo.pos e = n) ->
  exists s,
    validposition array s = true /\ at_ markers s <> 0 /\
    at_ (res (run k)) n = at_ markers s /\
    (n = s \/
     exists p c,
       flood_path Bc (in_region array markers (run k) s) s p /\
       validposition Bc c = true /\ at_ Bc c <> 0 /\
       n = nb p c /\ n <> p).
Proof.
  revert n. induction k as [|k IH]; intros n Hn Hor.
  - destruct (seeds_loop_spec T res0 array markers Bc Hin)
      as (_ & Hst & Hq & _ & Hhit & _).
    unfold reached, iterate in *. rewrite Hst, Hq in Hor.
    destruct Hor as [Hs|(e & He & Hpos)].
    + rewrite at_filled in Hs by done. discriminate.
    + apply elem_of_marker_entries in He as (p & _ & Hmp & He & _).
      rewrite He in Hpos. simpl in Hpos. subst p.
      exists n. destruct (Hhit n Hn Hmp) as [_ Hr].
      split; [done|]. split; [done|]. split; [done | by left].
  - destruct (top (hqueue (run k))) as [e|] eqn:Ht;
      [|rewrite step_none in *; auto].
    destruct (step_at k e n Ht Hn) as (HP & He & _ & Hs' & Hcase).
    destruct (step_at k e (MarkerInfo.pos e) Ht HP)
      as (_ & _ & _ & HsP & HcaseP).
    rewrite decide_True in HsP by done.
    assert (at_ (res (run (S k))) (MarkerInfo.pos e)
            = at_ (res (run k)) (MarkerInfo.pos e)) as HresP.
    { destruct HcaseP as [(Hne & _)|(_ & ? & _)]; done. }
    destruct Hcase as [(Hne & _ & _ & _ & Hres & _ & (c & Hc & Hact & Hnb))
                      |(_ & Hres & Hold & _)].
    + (* [n] is pushed by this scan: the path goes through the popped
         position, which is now settled *)
      destruct (IH (MarkerInfo.pos e) HP) as (s & Hs & Hm & Hlab & Hpath).
      { right. by exists e. }
      exists s. split; [done|]. split; [done|].
      split; [congruence|]. right. exists (MarkerInfo.pos e), c.
      split; [|done].
      assert (in_region array markers (run (S k)) s (MarkerInfo.pos e))
        as Hreg by (split; [done|]; split; [done | congruence]).
      destruct Hpath as [Heq|(p' & c' & Hp' & Hc' & Hact' & Hnb' & Hne')].
      * rewrite Heq in *. by apply path_start.
      * eapply path_step; eauto.
        eapply flood_path_mono; [|exact Hp']. apply in_region_step.
    + assert (at_ (status (run k)) n = true \/
              exists e', e' ∈ hqueue (run k) /\ MarkerInfo.pos e' = n)
        as Hbefore.
      { destruct Hor as [Hs|(e' & He' & Hpos)].
        - rewrite Hs' in Hs.
          destruct (decide (MarkerInfo.pos e = n));
            [right; by exists e | by left].
        - right. exists e'. split; [|done]. by apply (Hold e' He' Hpos). }
      destruct (IH n Hn Hbefore) as (s & Hs & Hm & Hlab & Hpath).
      exists s. split; [done|]. split; [done|]. split; [congruence|].
      destruct Hpath as [Heq|(p' & c' & Hp' & Hc' & Hact' & Hnb' & Hne')];
        [by left|].
      right. exists p', c'. split; [|done].
      eapply flood_path_mono; [|exact Hp']. apply in_region_step.
Qed.

(** X18. A region is connected to its marker: at every iteration of the
    main loop, and so when [cwatershed] returns, a settled position has the
    label of a marked position from which a path leads to it, every step
    of the path going through an active cell to another position, along
    settled positions that all have that label. *)
Theorem region_connected k n :
  validposition array n = true -> at_ (status (run k)) n = true ->
  cwatershed T res0 array markers Bc = Some (res fin) /\
  exists s,
    validposition array s = true /\ at_ markers s <> 0 /\
    at_ (res (run k)) n = at_ markers s /\
    flood_path Bc (in_region array markers (run k) s) s n.
Proof.
  intros Hn Hs.
  destruct (flood_terminates T res0 array markers Bc Hin) as (_ & _ & Hr).
  split; [done|].
  destruct (path_inv k n Hn (or_introl Hs)) as (s & Hvs & Hm & Hlab & Hpath).
  exists s. split; [done|]. split; [done|]. split; [done|].
  assert (in_region array markers (run k) s n) as Hreg by done.
  destruct Hpath as [->|(p & c & Hp & Hc & Hact & Hnb & Hne)].
  - by apply path_start.
  - eapply path_step; eauto.
Qed.

End more.

(** ** Shapes *)

Lemma same_shape_refl a : same_shape a a.
Proof. done. Qed.

Lemma same_shape_trans a b c : same_shape a b -> same_shape b c -> same_shape a c.
Proof. intros [? ?] [? ?]. split; congruence. Qed.

Lemma same_shape_put a p v : same_shape (at_put a p v) a.
Proof. split; [done|]. simpl. apply length_insert. Qed.

Lemma fold_same_shape {X} (f : ndarray Z -> X -> ndarray Z) l r :
  (forall r x, same_shape (f r x) r) -> same_shape (fold_left f l r) r.
Proof.
  intros Hf. revert r; induction l as [|x l IH]; intros r; [done|].
  cbn [fold_left]. eapply same_shape_trans; [apply IH | apply Hf].
Qed.

Lemma fold_res_shape {X} (f : wstate -> X -> wstate) l st :
  (forall st x, same_shape (res (f st x)) (res st)) ->
  same_shape (res (fold_left f l st)) (res st).
Proof.
  intros Hf. revert st; induction l as [|x l IH]; intros st; [done|].
  cbn [fold_left]. eapply same_shape_trans; [apply IH | apply Hf].
Qed.

Lemma flood_step_shape array Bc st st' :
  flood_step array Bc st = Some st' -> same_shape (res st') (res st).
Proof.
  unfold flood_step. destruct (top (hqueue st)) as [e|]; [|done].
  intros [= <-].
  apply (fold_res_shape _ _ (settle st (MarkerInfo.pos e))).
  intros s c. rewrite flood_cell_eq.
  destruct (_ && _); [apply same_shape_put | done].
Qed.

Lemma flood_shape fuel array Bc st s :
  flood fuel array Bc st = Some s -> same_shape (res s) (res st).
Proof.
  revert st; induction fuel as [|fuel IH]; intros st; cbn [flood];
    destruct (flood_step array Bc st) as [st'|] eqn:E; try done.
  - by intros [= <-].
  - intros H. eapply same_shape_trans; [by apply IH|].
    by apply (flood_step_shape array Bc).
  - by intros [= <-].
Qed.

(** X17. The three operators keep the shape of the array they fill: the
    extents and the length of the buffer of the result are those of [res],
    which for the arrays that the [py_] functions allocate are the
    extents of [array]. *)
Theorem shapes_kept T res array markers Bc :
  same_shape (erode res array Bc) res /\
  same_shape (dilate T res array Bc) res /\
  (forall r, cwatershed T res array markers Bc = Some r -> same_shape r res) /\
  dims (py_erode array Bc) = dims array /\
  dims (py_dilate T array Bc) = dims array /\
  (forall r, py_cwatershed T array markers Bc = Some r ->
     dims r = dims array).
Proof.
  assert (same_shape (erode res array Bc) res) as He.
  { intros. apply fold_same_shape. intros r x. apply same_shape_put. }
  assert (forall res0, same_shape (dilate T res0 array Bc) res0) as Hd.
  { intros res0. apply fold_same_shape. intros r x. unfold dilate_pos.
    destruct (truthy _); [|done]. apply fold_same_shape.
    intros r' c. unfold dilate_cell.
    destruct (truthy _); [|done].
    destruct (validposition _ _); [apply same_shape_put | done]. }
  assert (forall res0 r, cwatershed T res0 array markers Bc = Some r ->
            same_shape r res0) as Hw.
  { intros res0 r. unfold cwatershed.
    destruct (flood _ _ _ _) as [s|] eqn:E; [|done]. intros [= <-].
    eapply same_shape_trans; [by eapply flood_shape|].
    apply (fold_res_shape _ _ (initial T res0 array)).
    intros st p. unfold seed.
    destruct (truthy _); [apply same_shape_put | done]. }
  split; [done|]. split; [done|]. split; [apply Hw|]. split; [|split].
  - apply (fold_same_shape _ _ (array_like array 0)).
    intros r x. apply same_shape_put.
  - apply (Hd (array_like array 0)).
  - intros r Hr. apply (Hw (array_like array 0) r Hr).
Qed.

Lemma shapes_kept_witness :
  same_shape (dilate Int32 (row [0; 0]) (row [5; 1]) (row [1; 1; 1]))
    (row [0; 0]).
Proof.
  exact (proj1 (proj2 (shapes_kept Int32 (row [0; 0]) (row [5; 1])
                         (row [0; 0]) (row [1; 1; 1])))).
Defined.

(** ** Examples for the further properties *)

Lemma ex8_inputs :
  inputs_ok (array_like ex8_array 0) ex8_array ex8_markers ex_Bc.
Proof. split; try wf_by_compute; reflexivity. Defined.

Lemma ex_inputs_unmarked :
  inputs_ok (row [4; 4; 4]) (row [5; 3; 6]) (row [0; 0; 0]) ex_Bc.
Proof. split; try wf_by_compute; reflexivity. Defined.

Lemma no_markers_witness :
  cwatershed Int32 (row [4; 4; 4]) (row [5; 3; 6]) (row [0; 0; 0]) ex_Bc
  = Some (row [4; 4; 4]).
Proof.
  apply (no_markers Int32 _ _ _ _ ex_inputs_unmarked).
  intros p Hp%elem_of_positions.
  change (positions (row [5; 3; 6])) with [[0]; [1]; [2]] in Hp.
  repeat (apply elem_of_cons in Hp as [->|Hp]; [reflexivity|]).
  by apply elem_of_nil in Hp.
Defined.

Lemma settled_is_final_witness :
  at_ (status (reached Int32 (array_like ex_array 0) ex_array ex_markers
                 ex_Bc 3)) [0] = true /\
  at_ (res (reached Int32 (array_like ex_array 0) ex_array ex_markers ex_Bc 3))
    [0]
  = at_ (res (reached Int32 (array_like ex_array 0) ex_array ex_markers
                ex_Bc 1)) [0] /\
  at_ (cost (reached Int32 (array_like ex_array 0) ex_array ex_markers ex_Bc 3))
    [0]
  = at_ (cost (reached Int32 (array_like ex_array 0) ex_array ex_markers
                 ex_Bc 1)) [0].
Proof.
  apply (settled_is_final Int32 _ _ _ _ ex_inputs 1 3 [0]);
    [lia | reflexivity | reflexivity].
Defined.

Lemma max_intensity_unlabelled_witness :
  exists r,
    cwatershed Int8 (array_like ex8_array 0) ex8_array ex8_markers ex_Bc
    = Some r /\
    at_ r [1] = at_ (array_like ex8_array 0) [1].
Proof.
  apply (max_intensity_unlabelled Int8 _ _ _ _ ex8_inputs [1]);
    [reflexivity | reflexivity | discriminate].
Defined.

Lemma pushes_bounded_witness :
  0 <= idx (reached Int32 (array_like ex_array 0) ex_array ex_markers ex_Bc 2)
    <= Z.of_nat (size (array_like ex_array 0)).
Proof.
  apply (pushes_bounded Int32 _ _ _ _ ex_inputs 2).
Defined.

Lemma result_partition_witness :
  cwatershed Int32 (array_like ex_array 0) ex_array ex_markers ex_Bc
  = Some (res (reached Int32 (array_like ex_array 0) ex_array ex_markers ex_Bc
                 (size (array_like ex_array 0)))) /\
  hqueue (reached Int32 (array_like ex_array 0) ex_array ex_markers ex_Bc
            (size (array_like ex_array 0))) = [] /\
  (untouched Int32 (array_like ex_array 0) ex_markers
     (reached Int32 (array_like ex_array 0) ex_array ex_markers ex_Bc
        (size (array_like ex_array 0))) [2] \/
   (at_ (status (reached Int32 (array_like ex_array 0) ex_array ex_markers
                   ex_Bc (size (array_like ex_array 0)))) [2] = true /\
    marker_label ex_array ex_markers
      (at_ (res (reached Int32 (array_like ex_array 0) ex_array ex_markers
                   ex_Bc (size (array_like ex_array 0)))) [2]))).
Proof.
  apply (result_partition Int32 _ _ _ _ ex_inputs [2]). reflexivity.
Defined.

Lemma flood_complete_witness :
  (at_ (status (reached Int32 (array_like ex_array 0) ex_array ex_markers
                  ex_Bc (size (array_like ex_array 0))))
     (neighbour [0] [2] (central_position ex_Bc)) = true /\
   marker_label ex_array ex_markers
     (at_ (res (reached Int32 (array_like ex_array 0) ex_array ex_markers
                  ex_Bc (size (array_like ex_array 0))))
        (neighbour [0] [2] (central_position ex_Bc)))) \/
  max_value Int32 <= at_ ex_array (neighbour [0] [2] (central_position ex_Bc)).
Proof.
  apply (flood_complete Int32 _ _ _ _ ex_inputs [0] [2]);
    [reflexivity | reflexivity | reflexivity | discriminate | reflexivity].
Defined.

Lemma queued_once_witness :
  NoDup (MarkerInfo.pos <$>
           hqueue (reached Int32 (array_like ex_array 0) ex_array ex_markers
                     ex_Bc 2)) /\
  forall e,
    e ∈ hqueue (reached Int32 (array_like ex_array 0) ex_array ex_markers
                  ex_Bc 2) ->
    MarkerInfo.pos e <> [0].
Proof.
  destruct (queued_once Int32 _ _ _ _ ex_inputs 1 2 [0]) as [Hnd Hnot].
  split; [exact Hnd|].
  apply Hnot; [lia | reflexivity | reflexivity].
Defined.

Lemma region_connected_witness :
  exists s,
    validposition ex8_array s = true /\ at_ ex8_markers s <> 0 /\
    at_ (res (reached Int32 (array_like ex8_array 0) ex8_array ex8_markers
                ex_Bc 3)) [2]
    = at_ ex8_markers s /\
    flood_path ex_Bc
      (in_region ex8_array ex8_markers
         (reached Int32 (array_like ex8_array 0) ex8_array ex8_markers
            ex_Bc 3) s)
      s [2].
Proof.
  apply (region_connected Int32 _ _ _ _ ex8_inputs 3 [2]); reflexivity.
Defined.

End Watershed.

